(** * edgedict: the RNN-Transducer model and its tokenizer

    A shallow embedding of [tokenizer.py] (reserved ids, [CharTokenizer]) and
    of [models.py] ([TimeReduction], [LayerNormRNN], [Transducer.greedy_decode]
    and the [log_aplusb] combiner of the beam search), with the properties of
    the decoding algorithm that the specification states.

    Tensors are lists: a tensor of shape (batch, time, width) is a list of
    rows, a row a list of frames, a frame a list of reals.  Floating-point
    numbers are idealised as real numbers. *)

From Stdlib Require Import Reals Lra ZArith Ascii String.
From stdpp Require Import base tactics option list strings.

Local Open Scope Z_scope.

Set Warnings "-register-all".

(** ** Python containers *)

(** A [dict] keeps its keys in insertion order; assigning to a key that is
    already present replaces the value in place. *)
Module PyDict.

Section Dict.
Context {K V : Type} `{EqDecision K}.

Definition dict := list (K * V).

Fixpoint get (k : K) (d : dict) : option V :=
  match d with
  | [] => None
  | (k', v) :: d' => if decide (k' = k) then Some v else get k d'
  end.

Fixpoint set (k : K) (v : V) (d : dict) : dict :=
  match d with
  | [] => [(k, v)]
  | (k', v') :: d' =>
      if decide (k' = k) then (k, v) :: d' else (k', v') :: set k v d'
  end.

Definition items (d : dict) : list (K * V) := d.

Definition len (d : dict) : nat := length d.
End Dict.

Arguments dict : clear implicits.

End PyDict.

(** [enumerate(xs)], counting from [start]. *)
Fixpoint enumerate_from {A} (start : Z) (xs : list A) : list (Z * A) :=
  match xs with
  | [] => []
  | x :: xs' => (start, x) :: enumerate_from (start + 1) xs'
  end.

Definition enumerate {A} (xs : list A) : list (Z * A) := enumerate_from 0 xs.

(** ** tokenizer.py *)

Module Tokenizer.

Definition NUL : Z := 0.
Definition PAD : Z := 1.
Definition BOS : Z := 2.
Definition EOS : Z := 3.
Definition UNK : Z := 4.

Definition NUL_token : string := "<nul>".
Definition PAD_token : string := "<pad>".
Definition BOS_token : string := "<bos>".
Definition EOS_token : string := "<eos>".
Definition UNK_token : string := "<unk>".

Definition DEFAULT_TOKEN2ID : PyDict.dict string Z :=
  [ (NUL_token, NUL); (PAD_token, PAD); (BOS_token, BOS);
    (EOS_token, EOS); (UNK_token, UNK) ].

(** The five reserved ids. *)
Definition reserved_ids : list Z := [NUL; PAD; BOS; EOS; UNK].

(** A one-character Python string, from its code point. *)
Definition chr (n : nat) : string := String (ascii_of_nat n) EmptyString.

(** [string.ascii_lowercase]: the code points 97..122. *)
Definition ascii_lowercase : list string := chr <$> seq 97 26.

(** [string.punctuation]: the code points 33..47, 58..64, 91..96, 123..126,
    in this order. *)
Definition punctuation : list string :=
  chr <$> (seq 33 15 ++ seq 58 7 ++ seq 91 6 ++ seq 123 4).

(** [valid_tokens = string.ascii_lowercase + string.punctuation + ' '],
    iterated character by character. *)
Definition valid_tokens : list string := ascii_lowercase ++ punctuation ++ [chr 32].

Record CharTokenizer := {
  token2id : PyDict.dict string Z;
  id2token : PyDict.dict Z string;
  vocab_size : nat
}.

(** [CharTokenizer.__init__]. *)
Definition CharTokenizer_init : CharTokenizer :=
  let token2id0 := DEFAULT_TOKEN2ID in
  let token2id1 :=
    foldl (fun d '(idx, token) => PyDict.set token (idx + 4) d)
          token2id0 (enumerate valid_tokens) in
  let id2token1 :=
    foldl (fun d '(token, idx) => PyDict.set idx token d)
          [] (PyDict.items token2id1) in
  {| token2id := token2id1;
     id2token := id2token1;
     vocab_size := PyDict.len id2token1 |}.

(** [CharTokenizer.encode]'s per-character lookup,
    [self.token2id.get(char, UNK)]. *)
Definition encode_char (t : CharTokenizer) (c : string) : Z :=
  default UNK (PyDict.get c (token2id t)).

End Tokenizer.

(** ** Exceptions *)

Inductive exn :=
  | ZeroDivisionError
  | TypeError
  | ValueError
  | IndexError
  | RuntimeError.

Inductive result (A : Type) :=
  | Ok (a : A)
  | Raise (e : exn).

Arguments Ok {A} a.
Arguments Raise {A} e.

Definition is_ok {A} (r : result A) : bool :=
  match r with Ok _ => true | Raise _ => false end.

(** ** The tensor operations of PyTorch that models.py calls *)

Module Torch.

(** A vector of reals; a matrix (batch, width) is a [list Vec] and a tensor
    (batch, time, width) or (layers, batch, width) a [list (list Vec)]. *)
Definition Vec := list R.

#[global] Instance R_inhabited : Inhabited R := populate 0%R.

Definition zeros (n : nat) : Vec := replicate n 0%R.

(** [u + v] on two vectors of one width. *)
Definition vadd (u v : Vec) : Vec := zip_with Rplus u v.

(** [t.sum()] over one axis of reals. *)
Definition rsum (xs : list R) : R := foldr Rplus 0%R xs.

(** [t[:, i]]: the [i]-th entry of every row. *)
Definition column {A} `{Inhabited A} (i : nat) (t : list (list A)) : list A :=
  (fun row => row !!! i) <$> t.

(** [t.shape[1]] of a tensor given by its rows; an empty batch has no row to
    read the time axis from and counts as having no time step. *)
Definition shape1 {A} (t : list (list A)) : nat :=
  match t with
  | [] => 0%nat
  | row :: _ => length row
  end.

(** [F.log_softmax] of one row: [x_i - log (sum_j (exp x_j))]. *)
Definition log_softmax (xs : list R) : list R :=
  let lse := ln (rsum (exp <$> xs)) in
  (fun x => (x - lse)%R) <$> xs.

(** [torch.max] over one row: the maximal value together with the index of
    its first occurrence. *)
Fixpoint max_from (i : Z) (best : R) (besti : Z) (xs : list R) : R * Z :=
  match xs with
  | [] => (best, besti)
  | x :: xs' =>
      if Rlt_dec best x then max_from (i + 1) x i xs'
      else max_from (i + 1) best besti xs'
  end.

(** [torch.max] raises on a row of width zero; the rows it is given in
    [greedy_decode] have the width of the vocabulary, which is positive
    (see [joint_width] and [embed_padding] below), so that case is given a
    value that is never used. *)
Definition max (xs : list R) : R * Z :=
  match xs with
  | [] => (0%R, 0)
  | x :: xs' => max_from 1 x 0 xs'
  end.

(** [t[l, b]] of a tensor given by its rows, when both indices are in
    range. *)
Definition entry {A} (t : list (list A)) (l b : nat) : option A :=
  t !! l ≫= (fun row => row !! b).

(** All rows of a matrix have [B] entries. *)
Definition rect {A} (B : nat) (t : list (list A)) : Prop :=
  Forall (fun row => length row = B) t.

(** [torch.stack(ts, dim=1)] of [T] vectors of length [B]: the matrix of
    [B] rows whose row [b] lists [ts[0][b]], ..., [ts[T-1][b]].  An empty list
    of tensors is refused. *)
Fixpoint stack_rows {A} (B : nat) (ts : list (list A)) : list (list A) :=
  match ts with
  | [] => replicate B []
  | t :: ts' => zip_with cons t (stack_rows B ts')
  end.

Definition stack_dim1 {A} (ts : list (list A)) : result (list (list A)) :=
  match ts with
  | [] => Raise RuntimeError
  | t :: _ => Ok (stack_rows (length t) ts)
  end.

(** [t[mask] = new[mask]] along the batch axis: entries whose mask is set
    are replaced, the others stay. *)
Definition masked {A} (mask : list bool) (old new : list A) : list A :=
  zip_with (fun (m : bool) '(o, n) => if m then n else o) mask (zip old new).

(** *** nn.LSTM *)

(** One layer at one time step: the input and the layer's [(h, c)] give the
    new [(h, c)]; the layer emits the new [h].  The gates and the weights are
    those of PyTorch and stay abstract. *)
Definition Cell := Vec -> Vec * Vec -> Vec * Vec.

Record LSTM := {
  cells : list Cell;      (* one cell per layer, [num_layers] of them *)
  hidden_size : nat
}.

(** One layer over the time axis of one batch element. *)
Fixpoint run_layer (cell : Cell) (xs : list Vec) (hc : Vec * Vec)
  : list Vec * (Vec * Vec) :=
  match xs with
  | [] => ([], hc)
  | x :: xs' =>
      let hc' := cell x hc in
      let '(out, fin) := run_layer cell xs' hc' in
      (hc'.1 :: out, fin)
  end.

(** One layer over a batch (batch_first): element [b] runs from
    [(h[b], c[b])]. *)
Definition layer_forward (cell : Cell) (xs : list (list Vec)) (h c : list Vec)
  : list (list Vec) * (list Vec * list Vec) :=
  let rs := zip_with (run_layer cell) xs (zip h c) in
  (fst <$> rs, ((fun r => r.2.1) <$> rs, (fun r => r.2.2) <$> rs)).

(** The stack of layers: each layer reads the output of the one below; the
    states [hs], [cs] have shape (layers, batch, hidden).  Dropout between
    layers is the identity at inference. *)
Fixpoint lstm_layers (cs_ : list Cell) (xs : list (list Vec))
    (hs cs : list (list Vec))
  : list (list Vec) * (list (list Vec) * list (list Vec)) :=
  match cs_, hs, cs with
  | cell :: cells', h :: hs', c :: cs' =>
      let '(out, (h', c')) := layer_forward cell xs h c in
      let '(final, (hs'', cs'')) := lstm_layers cells' out hs' cs' in
      (final, (h' :: hs'', c' :: cs''))
  | _, _, _ => (xs, ([], []))
  end.

(** The initial state when none is passed: zeros of shape
    (layers, batch, hidden). *)
Definition zero_state (l : LSTM) (B : nat) : list (list Vec) :=
  replicate (length (cells l)) (replicate B (zeros (hidden_size l))).

(** [lstm(xs, state)] with [batch_first=True]. *)
Definition lstm_forward (l : LSTM) (xs : list (list Vec))
    (state : option (list (list Vec) * list (list Vec)))
  : list (list Vec) * (list (list Vec) * list (list Vec)) :=
  let '(hs, cs) :=
    match state with
    | Some s => s
    | None => (zero_state l (length xs), zero_state l (length xs))
    end in
  lstm_layers (cells l) xs hs cs.

End Torch.

(** ** models.py *)

(** *** TimeReduction *)

Module TimeReduction.
Import Torch.

(** A tensor of shape (batch_size, xlen, hidden_size) with its shape, which
    the code reads with [xs.shape]. *)
Record tensor3 := {
  batch_size : nat;
  xlen : nat;
  hidden_size : nat;
  rows : list (list Vec)
}.

(** [pad_shape = [[0, 0], [0, xlen % reduction_factor], [0, 0]]]: a list of
    three lists. *)
Definition pad_shape (xlen : nat) (r : Z) : list (list Z) :=
  [[0; 0]; [0; Z.of_nat xlen mod r]; [0; 0]].

(** [nn.functional.pad(xs, pad)] for a [pad] whose elements are lists.
    [F.pad] takes a flat sequence of ints, two for every padded axis and the
    last axis first, so an element that is a list is refused: a [TypeError]
    of the argument parser (the releases whose [F.pad] is written in Python
    fail before that, on its assertion that [len(pad)] is even).  An empty
    [pad] pads nothing. *)
Definition F_pad (xs : tensor3) (pad : list (list Z)) : result tensor3 :=
  match pad with
  | [] => Ok xs
  | _ :: _ => Raise TypeError
  end.

(** [pad_shape] read per axis as [before, after], the way [numpy.pad] reads
    such a list: [k] zero frames are appended to the time axis. *)
Definition pad_time (k : nat) (xs : tensor3) : tensor3 :=
  {| batch_size := batch_size xs;
     xlen := (xlen xs + k)%nat;
     hidden_size := hidden_size xs;
     rows := (fun row => row ++ replicate k (zeros (hidden_size xs))) <$> rows xs |}.

(** The [g]-th group of [r] consecutive frames of a row. *)
Definition group (r g : nat) (row : list Vec) : list Vec :=
  take r (drop (g * r) row).

(** The mean over a group of frames: the entrywise sum divided by their
    number. *)
Definition mean (r : nat) (H : nat) (frames : list Vec) : Vec :=
  (fun s => (s / INR r)%R) <$> foldr vadd (zeros H) frames.

(** [xs.view(batch_size, -1, r, hidden_size).mean(dim=2)] on the padded
    tensor.

    - with a negative [r] the view has a negative dimension, which is refused;
    - the view needs the number of entries
      [batch_size * xlen' * hidden_size] to be a multiple of
      [batch_size * r * hidden_size], and refuses to infer [-1] when that
      product is zero. *)
Definition view_mean (r : Z) (padded : tensor3) : result tensor3 :=
  if decide (r < 0) then Raise RuntimeError
  else
    let rn := Z.to_nat r in
    let numel := (batch_size padded * xlen padded * hidden_size padded)%nat in
    let known := (batch_size padded * rn * hidden_size padded)%nat in
    if decide (known = 0%nat) then Raise RuntimeError
    else if decide (numel `mod` known = 0)%nat then
      let G := (numel `div` known)%nat in
      Ok {| batch_size := batch_size padded;
            xlen := G;
            hidden_size := hidden_size padded;
            rows := (fun row =>
                       (fun g => mean rn (hidden_size padded) (group rn g row))
                         <$> seq 0 G) <$> rows padded |}
    else Raise RuntimeError.

(** [TimeReduction.forward] with [reduction_factor = r]: [xlen % r] raises
    [ZeroDivisionError] for [r = 0]; the call of [F.pad] is handed the three
    lists of [pad_shape]. *)
Definition forward (r : Z) (xs : tensor3) : result tensor3 :=
  if decide (r = 0) then Raise ZeroDivisionError
  else
    match F_pad xs (pad_shape (xlen xs) r) with
    | Raise e => Raise e
    | Ok padded => view_mean r padded
    end.

(** The computation [pad_shape] is written for: [forward] with the padding
    that [pad_shape] describes when it is read per axis, [xlen % r] zero
    frames after the time axis. *)
Definition forward_per_axis (r : Z) (xs : tensor3) : result tensor3 :=
  if decide (r = 0) then Raise ZeroDivisionError
  else view_mean r (pad_time (Z.to_nat (Z.of_nat (xlen xs) mod r)) xs).

(** The length the specification gives to the reduced time axis. *)
Definition ceil_div (T r : nat) : nat := ((T + r - 1) `div` r)%nat.

End TimeReduction.

(** *** LayerNormRNN *)

Module LayerNormRNN.

(** The modules that [__init__] builds, by their constructor arguments. *)
Inductive module :=
  | LSTM (input_size hidden_size num_layers : nat)
  | TimeReduction (reduction_factor : Z)
  | Linear (in_features out_features : nat)
  | Dropout (p : R)
  | LayerNorm (normalized_shape : nat)
  | Sequential (ms : list module).

(** What a Python list handed to [nn.Sequential] may hold: a module, or a
    list of modules. *)
Inductive pyobj :=
  | Mod (m : module)
  | PyList (ms : list module).

(** [nn.Sequential] registers each of its arguments with [add_module], which
    raises [TypeError] on anything that is not a module. *)
Fixpoint as_modules (args : list pyobj) : result (list module) :=
  match args with
  | [] => Ok []
  | Mod m :: args' =>
      match as_modules args' with
      | Ok ms => Ok (m :: ms)
      | Raise e => Raise e
      end
  | PyList _ :: _ => Raise TypeError
  end.

Definition nn_Sequential (args : list pyobj) : result module :=
  match as_modules args with
  | Ok ms => Ok (Sequential ms)
  | Raise e => Raise e
  end.

(** [nn.Dropout(p)] refuses a probability outside [0, 1]. *)
Definition nn_Dropout (p : R) : result module :=
  if Rlt_dec p 0 then Raise ValueError
  else if Rlt_dec 1 p then Raise ValueError
  else Ok (Dropout p).

(** The body of [for i in range(num_layers)], for the layers [i :: rest];
    [proj_size] is never [None] here, [__init__] having replaced [None] by
    [hidden_size]. *)
Fixpoint init_layers (layers : list nat) (input_size hidden_size : nat)
    (dropout : R) (proj_size : nat) (time_reductions : option (list nat))
    (rnns projs : list module) : result (list module * list module) :=
  match layers with
  | [] => Ok (rnns, projs)
  | i :: rest =>
      let rnns := rnns ++ [LSTM input_size hidden_size 1] in
      let proj :=
        match time_reductions with
        | Some trs => if bool_decide (i ∈ trs) then [Mod (TimeReduction 2)] else []
        | None => []
        end in
      let proj := proj ++ [PyList [Linear hidden_size proj_size]] in
      let output_size := proj_size in
      match nn_Dropout dropout with
      | Raise e => Raise e
      | Ok drop =>
          let proj := proj ++ [Mod drop; Mod (LayerNorm output_size)] in
          match nn_Sequential proj with
          | Raise e => Raise e
          | Ok s =>
              init_layers rest output_size hidden_size dropout proj_size
                time_reductions rnns (projs ++ [s])
          end
      end
  end.

(** [LayerNormRNN.__init__]: the module lists [(rnns, projs)]. *)
Definition init (input_size hidden_size num_layers : nat) (dropout : R)
    (proj_size : option nat) (time_reductions : option (list nat))
  : result (list module * list module) :=
  let proj_size := default hidden_size proj_size in
  init_layers (seq 0 num_layers) input_size hidden_size dropout proj_size
    time_reductions [] [].

Section Forward.
(** [X]: the activations [xs]; [S]: one of [h], [c] of one layer. *)
Context {X S : Type}.

(** A recurrent layer: [rnn(xs, hidden)] returns [(xs, (h, c))]. *)
Definition rnn := X -> option (S * S) -> X * (S * S).
(** A per-layer pipeline of [projs]. *)
Definition proj := X -> X.

(** The loop [for rnn, proj, hidden in zip(self.rnns, self.projs, hiddens)]
    of [forward]: [proj] is bound and not used. *)
Fixpoint forward_loop (rnns : list rnn) (projs : list proj)
    (hiddens : list (option (S * S))) (xs : X) (new_hiddens : list (S * S))
  : X * list (S * S) :=
  match rnns, projs, hiddens with
  | rnn_ :: rnns', proj_ :: projs', hidden :: hiddens' =>
      let '(xs, new_hidden) := rnn_ xs hidden in
      forward_loop rnns' projs' hiddens' xs (new_hiddens ++ [new_hidden])
  | _, _, _ => (xs, new_hiddens)
  end.

(** [LayerNormRNN.forward]; unpacking the transposed [new_hiddens] into [hs, cs] raises
    [ValueError] when there is no layer. *)
Definition forward (rnns : list rnn) (projs : list proj) (xs : X)
    (hiddens : option (list (option (S * S))))
  : result (X * (list S * list S)) :=
  let hiddens := default (replicate (length rnns) None) hiddens in
  let '(xs, new_hiddens) := forward_loop rnns projs hiddens xs [] in
  match new_hiddens with
  | [] => Raise ValueError
  | _ => Ok (xs, (fst <$> new_hiddens, snd <$> new_hiddens))
  end.

(** The stack as the specification describes it: the output of each
    recurrent layer goes through the layer's pipeline before the next
    layer reads it. *)
Fixpoint spec_loop (rnns : list rnn) (projs : list proj)
    (hiddens : list (option (S * S))) (xs : X) (new_hiddens : list (S * S))
  : X * list (S * S) :=
  match rnns, projs, hiddens with
  | rnn_ :: rnns', proj_ :: projs', hidden :: hiddens' =>
      let '(xs, new_hidden) := rnn_ xs hidden in
      spec_loop rnns' projs' hiddens' (proj_ xs) (new_hiddens ++ [new_hidden])
  | _, _, _ => (xs, new_hiddens)
  end.

Definition spec_forward (rnns : list rnn) (projs : list proj) (xs : X)
    (hiddens : option (list (option (S * S))))
  : result (X * (list S * list S)) :=
  let hiddens := default (replicate (length rnns) None) hiddens in
  let '(xs, new_hiddens) := spec_loop rnns projs hiddens xs [] in
  match new_hiddens with
  | [] => Raise ValueError
  | _ => Ok (xs, (fst <$> new_hiddens, snd <$> new_hiddens))
  end.
End Forward.

End LayerNormRNN.

(** *** Transducer *)

Module Transducer.
Import Torch.

(** A [Transducer] after [__init__], by what [greedy_decode] uses of it.
    [encoder_fc], [embed] and [joint] act on each vector on its own, as
    [nn.Linear], [nn.Embedding] and [nn.Tanh] do. *)
Record Transducer := {
  vocab_size : nat;
  blank : Z;
  encoder : LSTM;
  encoder_fc : Vec -> Vec;
  embed : Z -> Vec;
  decoder : LSTM;
  joint : Vec -> list R;
  (** the last layer of [joint] is [nn.Linear(hidden_size, vocab_size)] *)
  joint_width : forall v, length (joint v) = vocab_size;
  (** [nn.Embedding(vocab_size, _, padding_idx=PAD)] asserts that
      [padding_idx] is below [vocab_size] *)
  embed_padding : Z.of_nat vocab_size > Tokenizer.PAD
}.

(** The predictor's output and recurrent state, which the loop of
    [greedy_decode] updates in place: [h_pre] of shape (batch, 1, hidden),
    [h] and [c] of shape (layers, batch, hidden). *)
Record state := {
  h_pre : list (list Vec);
  h : list (list Vec);
  c : list (list Vec)
}.

(** The shapes of the state for a batch of [B]: [h_pre] has [B] entries,
    [h] and [c] one row of [B] entries per layer of the decoder. *)
Definition state_shape (m : Transducer) (B : nat) (st : state) : Prop :=
  length (h_pre st) = B
  /\ length (h st) = length (cells (decoder m))
  /\ length (c st) = length (cells (decoder m))
  /\ rect B (h st) /\ rect B (c st).

(** [pred != self.blank]. *)
Definition non_blank (m : Transducer) (pred : list Z) : list bool :=
  (fun p => bool_decide (p ≠ blank m)) <$> pred.

(** [prob, pred = torch.max(probs, dim=1)] of the joint network's
    log-softmax, for the encoder frames [enc_i = h_enc[:, i]]. *)
Definition step_max (m : Transducer) (enc_i : list Vec) (st : state)
  : list (R * Z) :=
  let logits := joint m <$> zip_with vadd enc_i (column 0 (h_pre st)) in
  let probs := log_softmax <$> logits in
  max <$> probs.

(** [self.decoder(embed_pred, (h, c))]: the candidate
    [(new_h_pre, (new_h, new_c))]. *)
Definition step_candidate (m : Transducer) (pred : list Z) (st : state)
  : list (list Vec) * (list (list Vec) * list (list Vec)) :=
  let embed_pred := (fun p => [embed m p]) <$> pred in
  lstm_forward (decoder m) embed_pred (Some (h st, c st)).

(** One pass through the body of [for i in range(h_enc.shape[1])]: the
    chosen tokens, their log-probabilities and the state after the masked
    assignments. *)
Definition greedy_step (m : Transducer) (enc_i : list Vec) (st : state)
  : list Z * list R * state :=
  let mx := step_max m enc_i st in
  let prob := fst <$> mx in
  let pred := snd <$> mx in
  let '(new_h_pre, (new_h, new_c)) := step_candidate m pred st in
  let mask := non_blank m pred in
  (pred, prob,
   {| h_pre := masked mask (h_pre st) new_h_pre;
      h := zip_with (masked mask) (h st) new_h;
      c := zip_with (masked mask) (c st) new_c |}).

(** The loop over the time indices [idxs], with what it appends to [y_seq]
    and [log_p] and the state it ends in. *)
Fixpoint greedy_loop (m : Transducer) (h_enc : list (list Vec))
    (idxs : list nat) (st : state) : list (list Z) * list (list R) * state :=
  match idxs with
  | [] => ([], [], st)
  | i :: idxs' =>
      let '(pred, prob, st') := greedy_step m (column i h_enc) st in
      let '(y_seq, log_p, fin) := greedy_loop m h_enc idxs' st' in
      (pred :: y_seq, prob :: log_p, fin)
  end.

(** [seq[:seq_len]] with Python's reading of a negative bound. *)
Definition slice_to {A} (n : Z) (l : list A) : list A :=
  if decide (0 <= n) then take (Z.to_nat n) l
  else take (length l - Z.to_nat (- n)) l.

(** [h_enc] of [greedy_decode]: [self.encoder_fc(self.encoder(xs)[0])]. *)
Definition encode (m : Transducer) (xs : list (list Vec)) : list (list Vec) :=
  (fun row : list Vec => encoder_fc m <$> row) <$> (lstm_forward (encoder m) xs None).1.

(** The state after [self.decoder(self.embed(bos))], for a batch of [B]. *)
Definition init_state (m : Transducer) (B : nat) : state :=
  let bos := replicate B [Tokenizer.BOS] in
  let '(h_pre, (h, c)) := lstm_forward (decoder m) ((fun row : list Z => embed m <$> row) <$> bos) None in
  {| h_pre := h_pre; h := h; c := c |}.

(** The lists [y_seq] and [log_p] when the loop of [greedy_decode] ends:
    one entry per time step, each with one value per batch element. *)
Definition run_loop (m : Transducer) (xs : list (list Vec))
  : list (list Z) * list (list R) :=
  let h_enc := encode m xs in
  (greedy_loop m h_enc (seq 0 (shape1 h_enc)) (init_state m (length xs))).1.

(** [y_seq] and [log_p] after [torch.stack(_, dim=1)]: one row per batch
    element, one entry per time step. *)
Definition token_record (m : Transducer) (xs : list (list Vec)) : list (list Z) :=
  stack_rows (length xs) (run_loop m xs).1.

Definition log_prob_record (m : Transducer) (xs : list (list Vec)) : list (list R) :=
  stack_rows (length xs) (run_loop m xs).2.

(** The last loop of [greedy_decode]: truncate each row to its length, then
    drop the blanks; [zip] stops at the shorter of its arguments. *)
Definition truncate_and_filter (m : Transducer) (y_seq : list (list Z))
    (xlen : list Z) : list (list Z) :=
  zip_with (fun seq seq_len =>
              filter (fun tok => tok ≠ blank m) (slice_to seq_len seq))
           y_seq xlen.

(** [Transducer.greedy_decode].

    - [nn.LSTM] refuses an input with no time step ([RuntimeError]);
    - [self.embed(bos)] indexes the embedding at [BOS], which raises
      [IndexError] unless [BOS] is below [vocab_size]. *)
Definition greedy_decode (m : Transducer) (xs : list (list Vec)) (xlen : list Z)
  : result (list (list Z) * list R) :=
  if decide (shape1 xs = 0%nat) then Raise RuntimeError
  else if decide (Z.of_nat (vocab_size m) <= Tokenizer.BOS) then Raise IndexError
  else
    let '(y_seq, log_p) := run_loop m xs in
    match stack_dim1 y_seq, stack_dim1 log_p with
    | Ok y_seq, Ok log_p =>
        let log_p := rsum <$> log_p in
        let ret_y := truncate_and_filter m y_seq xlen in
        Ok (ret_y, Ropp <$> log_p)
    | Raise e, _ | _, Raise e => Raise e
    end.

(** **** The computation of one batch element

    What the batched code above does to the element at one batch index,
    written for that element alone; the theorems below show that the batch
    computes exactly this at every index. *)

(** The stack of layers on one element, from the element's [(h, c)] of each
    layer. *)
Fixpoint elem_layers (cs_ : list Cell) (x : list Vec) (e : list (Vec * Vec))
  : list Vec * list (Vec * Vec) :=
  match cs_, e with
  | cell :: cells', hc :: e' =>
      let '(out, fin) := run_layer cell x hc in
      let '(final, e'') := elem_layers cells' out e' in
      (final, fin :: e'')
  | _, _ => (x, [])
  end.

Definition elem_zero_state (l : LSTM) : list (Vec * Vec) :=
  replicate (length (cells l)) (zeros (hidden_size l), zeros (hidden_size l)).

(** The encoder's output for one element. *)
Definition elem_encode (m : Transducer) (x : list Vec) : list Vec :=
  encoder_fc m <$> (elem_layers (cells (encoder m)) x (elem_zero_state (encoder m))).1.

(** One element's predictor output (1, hidden) and recurrent state. *)
Definition elem_state := (list Vec * list (Vec * Vec))%type.

Definition elem_init (m : Transducer) : elem_state :=
  elem_layers (cells (decoder m)) [embed m Tokenizer.BOS] (elem_zero_state (decoder m)).

Definition elem_max (m : Transducer) (enc_i : Vec) (st : elem_state) : R * Z :=
  max (log_softmax (joint m (vadd enc_i (st.1 !!! 0%nat)))).

Definition elem_step (m : Transducer) (enc_i : Vec) (st : elem_state)
  : Z * R * elem_state :=
  let '(prob, pred) := elem_max m enc_i st in
  let cand := elem_layers (cells (decoder m)) [embed m pred] st.2 in
  (pred, prob, if bool_decide (pred ≠ blank m) then cand else st).

Fixpoint elem_loop (m : Transducer) (enc : list Vec) (idxs : list nat)
    (st : elem_state) : list Z * list R * elem_state :=
  match idxs with
  | [] => ([], [], st)
  | i :: idxs' =>
      let '(pred, prob, st') := elem_step m (enc !!! i) st in
      let '(ys, ps, fin) := elem_loop m enc idxs' st' in
      (pred :: ys, prob :: ps, fin)
  end.

(** The tokens chosen and their log-probabilities at the [T] time steps,
    for the element with the frames [x]. *)
Definition elem_run (m : Transducer) (T : nat) (x : list Vec) : list Z * list R :=
  (elem_loop m (elem_encode m x) (seq 0 T) (elem_init m)).1.

(** The states of the layers [hs], [cs] hold [e] at the batch index [b]. *)
Definition layers_at (b : nat) (hs cs : list (list Vec)) (e : list (Vec * Vec))
  : Prop :=
  Forall2 (fun hl hc => hl !! b = Some hc.1) hs e
  /\ Forall2 (fun cl hc => cl !! b = Some hc.2) cs e.

(** The batch state [st] holds the element state [e] at the batch index
    [b]. *)
Definition state_at (m : Transducer) (b : nat) (st : state) (e : elem_state)
  : Prop :=
  h_pre st !! b = Some e.1
  /\ layers_at b (h st) (c st) e.2
  /\ length e.2 = length (cells (decoder m)).

(** The score the specification describes for an element of valid length
    [L]: the chosen log-probabilities of the first [L] steps only, summed
    and negated. *)
Definition spec_score (L : Z) (log_p : list R) : R :=
  (- rsum (slice_to L log_p))%R.

End Transducer.

(** *** log_aplusb (beam search, commented out in models.py) *)

(** [max(a, b) + math.log1p(math.exp(-math.fabs(a - b)))]. *)
Definition log_aplusb (a b : R) : R :=
  (Rmax a b + ln (1 + exp (- Rabs (a - b))))%R.

(** ** Concrete inputs *)

Module LayerExamples.

(** A one-layer stack on scalar activations: the recurrent layer passes its
    input on, the layer's pipeline adds one. *)
Definition pass_rnn : @LayerNormRNN.rnn R R := fun xs _ => (xs, (0%R, 0%R)).
Definition add_one : @LayerNormRNN.proj R := fun xs => (xs + 1)%R.

End LayerExamples.

Module Examples.
Import Torch.

(** One batch element of four frames of width one. *)
Definition four_frames : TimeReduction.tensor3 :=
  {| TimeReduction.batch_size := 1;
     TimeReduction.xlen := 4;
     TimeReduction.hidden_size := 1;
     TimeReduction.rows := [[ [1%R]; [2%R]; [3%R]; [4%R] ]] |}.

(** A small transducer over the vocabulary 0..7 with vectors of width two.
    The encoder's single layer emits its input; the decoder's single layer
    adds its input to [h]; a token [p] is embedded as [[0; p]]; the joint
    network scores blank with 1, token 3 with twice the first entry of its
    input, and every other token with 0.  So token 3 is preferred exactly on
    frames whose first entry exceeds one half. *)
Definition pass_cell : Cell := fun x hc => (x, hc.2).
Definition add_cell : Cell := fun x hc => (vadd x hc.1, hc.2).

Definition small_joint (v : list R) : list R :=
  [1; 0; 0; 2 * (v !!! 0%nat); 0; 0; 0; 0]%R.

Definition small : Transducer.Transducer :=
  {| Transducer.vocab_size := 8;
     Transducer.blank := Tokenizer.NUL;
     Transducer.encoder := {| cells := [pass_cell]; hidden_size := 2 |};
     Transducer.encoder_fc := fun v => v;
     Transducer.embed := fun p => [0%R; IZR p];
     Transducer.decoder := {| cells := [add_cell]; hidden_size := 2 |};
     Transducer.joint := small_joint;
     Transducer.joint_width := fun _ => eq_refl;
     Transducer.embed_padding := eq_refl |}.

(** A quiet frame and a frame on which [small] prefers token 3. *)
Definition quiet : Vec := [0%R; 0%R].
Definition loud : Vec := [1%R; 0%R].

(** Five frames, the third of them loud. *)
Definition utterance : list Vec := [quiet; quiet; loud; quiet; quiet].

(** The same five frames with the padding after the third frame changed. *)
Definition utterance_repadded : list Vec := [quiet; quiet; loud; loud; loud].

(** Three copies of [utterance] and the valid lengths 5, 3, 5. *)
Definition batch3 : list (list Vec) := [utterance; utterance; utterance].
Definition lengths3 : list Z := [5; 3; 5].

(** [batch3] with the padding of its second element changed. *)
Definition batch3_repadded : list (list Vec) :=
  [utterance; utterance_repadded; utterance].

(** The log of the sum of the exponentials of the scores of [small]. *)
Definition lse (v : list R) : R := ln (rsum (exp <$> small_joint v)).


(** A batch of two elements of one frame each: the first element is about
    to choose blank, the second token 3. *)
Definition frames2 : list Vec := [quiet; loud].

End Examples.

(** ** More of tokenizer.py: strings, encode and decode, padding *)

(** Python strings over the code points below 256, as [string].  On these
    [str.lower] works character by character; beyond them it can make a text
    longer, so nothing below relies on the length of a lower-cased text. *)
Module PyStr.

(** The characters of a string, each a string of length one, as iterating
    over a [str] yields them. *)
Definition chars (s : string) : list string :=
  (fun c => String c EmptyString) <$> list_ascii_of_string s.

(** [''.join(parts)]. *)
Definition join (parts : list string) : string :=
  foldr String.append EmptyString parts.

(** [str.lower] of one character: the letters A-Z and the capital letters
    of Latin-1 (192-222 but for the multiplication sign 215) move up by 32. *)
Definition lower_char (c : ascii) : ascii :=
  let n := nat_of_ascii c in
  if ((65 <=? n) && (n <=? 90)
      || (192 <=? n) && (n <=? 222) && negb (n =? 215))%nat
  then ascii_of_nat (n + 32) else c.

(** [s.lower()]. *)
Fixpoint lower (s : string) : string :=
  match s with
  | EmptyString => EmptyString
  | String c s' => String (lower_char c) (lower s')
  end.

(** [s[:n]], where [n] may be [None] or negative. *)
Definition slice_to (n : option Z) (s : string) : string :=
  match n with
  | None => s
  | Some n => string_of_list_ascii (Transducer.slice_to n (list_ascii_of_string s))
  end.

(** [old in s]. *)
Fixpoint contains (old s : string) : bool :=
  String.prefix old s
  || match s with
     | EmptyString => false
     | String _ s' => contains old s'
     end.

(** [s.replace(old, new)] for a non-empty [old]: the occurrences of [old]
    are found from left to right without overlap; [skip] counts the
    characters of the occurrence just found that are still to be passed. *)
Fixpoint replace_from (old new : string) (skip : nat) (s : string) : string :=
  match s with
  | EmptyString => EmptyString
  | String c s' =>
      match skip with
      | S k => replace_from old new k s'
      | O =>
          if String.prefix old s
          then String.append new (replace_from old new (String.length old - 1) s')
          else String c (replace_from old new 0 s')
      end
  end.

(** [s.replace(old, new)]; with an empty [old], [new] is put before every
    character and at the end. *)
Definition replace (old new s : string) : string :=
  match old with
  | EmptyString =>
      String.append new
        (join ((fun c => String.append c new) <$> chars s))
  | _ => replace_from old new 0 s
  end.

(** [c] is not among the characters of [s]. *)
Definition char_absent (c : ascii) (s : string) : Prop :=
  c ∉ list_ascii_of_string s.

End PyStr.

Module CharTokenizerMethods.
Import Tokenizer.

(** [CharTokenizer.encode(text, max_length)]. *)
Definition encode (t : CharTokenizer) (text : string) (max_length : option Z)
  : list Z :=
  let text := PyStr.lower text in
  let text := PyStr.slice_to max_length text in
  (fun char => default UNK (PyDict.get char (token2id t))) <$> PyStr.chars text.

(** [CharTokenizer.decode(tokens)]. *)
Definition decode (t : CharTokenizer) (tokens : list Z) : string :=
  let text :=
    PyStr.join ((fun token => default EmptyString (PyDict.get token (id2token t)))
                  <$> tokens) in
  let text := PyStr.replace "<pad>" "" text in
  let text := PyStr.replace "<eos>" "" text in
  text.

(** The id [encode] gives to one character of the text. *)
Definition char_id (c : ascii) : Z :=
  default UNK (PyDict.get (String c EmptyString) (token2id CharTokenizer_init)).

(** Whether a character is one of [valid_tokens]. *)
Definition in_vocabulary (c : ascii) : bool :=
  bool_decide (String c EmptyString ∈ valid_tokens).

(** A text as it comes back from [decode] after [encode]: in lower case,
    with the letter a in the place of every character that is not in the
    vocabulary. *)
Fixpoint read_back (s : string) : string :=
  match s with
  | EmptyString => EmptyString
  | String c s' =>
      let c := PyStr.lower_char c in
      String (if in_vocabulary c then c else "a"%char) (read_back s')
  end.

(** [CharTokenizer.decode_plus(token_batch)]. *)
Definition decode_plus (t : CharTokenizer) (token_batch : list (list Z))
  : list string :=
  decode t <$> token_batch.

End CharTokenizerMethods.

(** The two padding functions of tokenizer.py. *)
Module Collate.

(** [max(len(x) for x in xs)], which raises [ValueError] on no element. *)
Definition max_len {A} (xs : list (list A)) : result nat :=
  match xs with
  | [] => Raise ValueError
  | x :: xs' => Ok (foldl (fun acc y => Nat.max acc (length y)) (length x) xs')
  end.

(** [mat[e, :len(x)] = x]: the first [len(x)] places of row [e] receive
    [x]. *)
Definition assign_prefix {A} (e : Z) (x : list A) (mat : list (list A))
  : list (list A) :=
  alter (fun row => x ++ drop (length x) row) (Z.to_nat e) mat.

(** [zero_pad_concat(feats)], for features whose frames have one common
    shape [feats[0].shape[1:]], of which [zero] is the zero frame. *)
Definition zero_pad_concat {A} (zero : A) (feats : list (list A))
  : result (list (list A)) :=
  match max_len feats with
  | Raise e => Raise e
  | Ok max_t =>
      let input_mat := replicate (length feats) (replicate max_t zero) in
      Ok (foldl (fun mat '(e, feat) => assign_prefix e feat mat)
                input_mat (enumerate feats))
  end.

(** [end_pad_concat(texts)]. *)
Definition end_pad_concat (texts : list (list Z)) : result (list (list Z)) :=
  match max_len texts with
  | Raise e => Raise e
  | Ok max_t =>
      let labels := replicate (length texts) (replicate max_t Tokenizer.PAD) in
      Ok (foldl (fun mat '(e, l) => assign_prefix e l mat)
                labels (enumerate texts))
  end.

End Collate.

(** ** Transducer.forward *)

Module TransducerForward.
Import Torch Transducer.

(** The batch axes of the two summands of [h_enc + h_pre]: axes of one
    size pair up entry by entry, an axis of size one is repeated along the
    other, and any other pair of sizes is refused. *)
Definition broadcast {A C} (l : list A) (k : list C) : result (list (A * C)) :=
  if decide (length l = length k) then Ok (zip l k)
  else
    match l, k with
    | [a], _ => Ok ((fun c => (a, c)) <$> k)
    | _, [c] => Ok ((fun a => (a, c)) <$> l)
    | _, _ => Raise RuntimeError
    end.

(** [torch.cat([bos, ys], dim=-1)], with [bos] of shape
    ([ys.shape[0]], 1). *)
Definition with_bos (ys : list (list Z)) : list (list Z) :=
  zip_with app (replicate (length ys) [Tokenizer.BOS]) ys.

(** [self.joint(h_enc.unsqueeze(2) + h_pre.unsqueeze(1))] for one element
    of the batch: an entry for every time step and every label position. *)
Definition joint_sum (m : Transducer) (enc pre : list (list R))
  : list (list (list R)) :=
  (fun e : list R => (fun p : list R => joint m (vadd e p)) <$> pre) <$> enc.

(** [Transducer.forward(xs, ys)]: the scores of shape
    (batch, time, labels + 1, vocabulary).

    - [nn.LSTM] refuses an input with no time step; as for [xs], a batch
      [ys] without rows has no axis to read and is refused here;
    - [self.embed] raises [IndexError] on a token that is not an index of
      the vocabulary;
    - dropout between the layers of an LSTM is inactive, as in [Torch.LSTM]:
      the module is in evaluation mode, or its dropout probabilities are 0,
      the default. *)
Definition forward (m : Transducer) (xs : list (list Vec)) (ys : list (list Z))
  : result (list (list (list (list R)))) :=
  if decide (shape1 xs = 0%nat) then Raise RuntimeError
  else
    let h_enc := encode m xs in
    if decide (ys = []) then Raise RuntimeError
    else
      let h_pre := with_bos ys in
      if decide (Forall (Forall (fun tok => 0 <= tok < Z.of_nat (vocab_size m)))
                        h_pre)
      then
        let h_pre :=
          (lstm_forward (decoder m)
             ((fun row : list Z => embed m <$> row) <$> h_pre) None).1 in
        match broadcast h_enc h_pre with
        | Raise e => Raise e
        | Ok pairs =>
            Ok ((fun ep : list (list R) * list (list R) =>
                   joint_sum m ep.1 ep.2) <$> pairs)
        end
      else Raise IndexError.

(** The predictor's outputs for one element, on the labels [toks]. *)
Definition elem_predict (m : Transducer) (toks : list Z)
  : list Vec * list (Vec * Vec) :=
  elem_layers (cells (decoder m)) (embed m <$> toks) (elem_zero_state (decoder m)).

(** The scores of one element at the time step [t] and the label position
    [u]. *)
Definition lattice_entry (m : Transducer) (x : list Vec) (y : list Z)
    (t u : nat) : list R :=
  joint m (vadd (elem_encode m x !!! t)
                ((elem_predict m (Tokenizer.BOS :: y)).1 !!! u)).

(** [prob[b, t, u]], when the indices are in range. *)
Definition entry3 {A} (p : list (list (list A))) (b t u : nat) : option A :=
  p !! b ≫= (fun pb => pb !! t ≫= (fun pbt => pbt !! u)).

(** An element state of the decoding loop holds what the predictor has
    after reading the labels [toks]: its recurrent state and its last
    output. *)
Definition predictor_at (m : Transducer) (toks : list Z) (e : elem_state)
  : Prop :=
  e.2 = (elem_predict m toks).2
  /\ e.1 !!! 0%nat = (elem_predict m toks).1 !!! (length toks - 1)%nat.

End TransducerForward.

Module MoreExamples.
Import Torch.

(** The labels of the three elements of [Examples.batch3]: the token 3,
    followed for the second element by a padding token. *)
Definition labels3 : list (list Z) := [[3]; [3]; [3]].
Definition labels3_padded : list (list Z) := [[3; 1]; [3; 1]; [3; 1]].

End MoreExamples.

(** * Properties *)

(** ** CharTokenizer *)

Section TokenizerFacts.
Import Tokenizer.

(** Every character of [valid_tokens] receives its position plus four. *)
Lemma token2id_valid_tokens :
  Forall (fun '(idx, token) =>
            PyDict.get token (token2id CharTokenizer_init) = Some (idx + 4))
         (enumerate valid_tokens).
Proof. vm_compute. repeat constructor. Qed.

(** All ordinary characters but the first have an id of five or more. *)
Lemma token2id_above_reserved :
  Forall (fun token =>
            token = "a"%string \/
            exists id, PyDict.get token (token2id CharTokenizer_init) = Some id
                       /\ 5 <= id)
         valid_tokens.
Proof.
  vm_compute. constructor; [by left|].
  repeat (constructor; [right; eexists; split; [reflexivity|discriminate]|]).
  constructor.
Qed.

(** C8 (the code departs from it): the first ordinary character, the letter
    a, is given the id 4, which is the reserved id [UNK]; in [id2token] it
    takes the place of the token of [UNK], and a character outside the
    vocabulary, such as the digit 0, is encoded to the same id. *)
Theorem CharTokenizer_letter_a_collides_with_UNK :
  PyDict.get "a"%string (token2id CharTokenizer_init) = Some UNK
  /\ UNK ∈ reserved_ids
  /\ PyDict.get UNK (id2token CharTokenizer_init) = Some "a"%string
  /\ encode_char CharTokenizer_init "0" = encode_char CharTokenizer_init "a".
Proof.
  split; [reflexivity|]. split; [|split; reflexivity].
  unfold reserved_ids. repeat constructor.
Qed.

End TokenizerFacts.

(** ** TimeReduction *)

Section TimeReductionFacts.
Import Torch TimeReduction.

Lemma padded_length_two (T : nat) :
  (T + Z.to_nat (Z.of_nat T mod 2) = 2 * ceil_div T 2)%nat.
Proof.
  unfold ceil_div.
  assert (Z.to_nat (Z.of_nat T mod 2) = T `mod` 2)%nat as ->.
  { rewrite <- (Nat2Z.id (T `mod` 2)). f_equal. by rewrite Nat2Z.inj_mod. }
  pose proof (Nat.div_mod_eq T 2). pose proof (Nat.div_mod_eq (T + 2 - 1) 2).
  pose proof (Nat.mod_upper_bound T 2). pose proof (Nat.mod_upper_bound (T + 2 - 1) 2).
  lia.
Qed.

(** With the factor two, the only one models.py uses, and [pad_shape] read
    per axis, the padded length is even and the time axis shrinks to
    [ceil (T / 2)]. *)
Lemma forward_two (xs : tensor3) :
  (0 < batch_size xs)%nat -> (0 < hidden_size xs)%nat ->
  exists ys, forward_per_axis 2 xs = Ok ys
             /\ xlen ys = ceil_div (xlen xs) 2
             /\ batch_size ys = batch_size xs
             /\ hidden_size ys = hidden_size xs
             /\ length (rows ys) = length (rows xs).
Proof.
  intros HB HH. unfold forward_per_axis, view_mean.
  destruct (decide (2 = 0)) as [|_]; [lia|].
  destruct (decide (2 < 0)) as [|_]; [lia|].
  cbn [batch_size xlen hidden_size pad_time rows].
  rewrite padded_length_two.
  change (Z.to_nat 2) with 2%nat.
  set (q := ceil_div (xlen xs) 2).
  assert (batch_size xs * (2 * q) * hidden_size xs
          = q * (batch_size xs * 2 * hidden_size xs))%nat as -> by lia.
  destruct (decide (batch_size xs * 2 * hidden_size xs = 0)%nat) as [E|NE]; [nia|].
  rewrite Nat.Div0.mod_mul.
  destruct (decide (0 = 0)%nat) as [_|]; [|done].
  eexists. split; [reflexivity|]. cbn [batch_size xlen hidden_size rows].
  rewrite Nat.div_mul by done. rewrite !length_fmap. done.
Qed.

(** With [pad_shape] read per axis, a positive factor is accepted exactly
    when the padded length [xlen + xlen % r] is a multiple of it. *)
Lemma forward_ok_iff (r : Z) (xs : tensor3) :
  0 < r -> (0 < batch_size xs)%nat -> (0 < hidden_size xs)%nat ->
  is_ok (forward_per_axis r xs) = true
  <-> ((xlen xs + Z.to_nat (Z.of_nat (xlen xs) mod r)) `mod` Z.to_nat r = 0)%nat.
Proof.
  intros Hr HB HH. unfold forward_per_axis, view_mean.
  destruct (decide (r = 0)) as [|_]; [lia|].
  destruct (decide (r < 0)) as [|_]; [lia|].
  cbn [batch_size xlen hidden_size pad_time rows].
  set (T' := (xlen xs + Z.to_nat (Z.of_nat (xlen xs) mod r))%nat).
  set (rn := Z.to_nat r). assert (0 < rn)%nat by lia.
  destruct (decide (batch_size xs * rn * hidden_size xs = 0)%nat) as [E|NE]; [nia|].
  assert (batch_size xs * T' * hidden_size xs
          = (batch_size xs * hidden_size xs) * T')%nat as -> by lia.
  assert (batch_size xs * rn * hidden_size xs
          = (batch_size xs * hidden_size xs) * rn)%nat as -> by lia.
  rewrite Nat.Div0.mul_mod_distr_l.
  destruct (decide _) as [E|NE']; cbn [is_ok]; split; try done.
  - intros _. nia.
  - intros E. rewrite E in NE'. lia.
Qed.

(** [F.pad] is handed a list of lists whatever the input is, so [forward]
    returns for no factor and no input. *)
Lemma forward_raises (r : Z) (xs : tensor3) :
  forward r xs = Raise (if decide (r = 0) then ZeroDivisionError else TypeError).
Proof. unfold forward. by destruct (decide (r = 0)). Qed.

(** C6 (the code departs from it): the specification has the call with the
    factor 3 and four frames succeed with [ceil (4 / 3) = 2] frames.  The
    code raises there, as it does for every factor and every input, at its
    call of [F.pad], which is handed three lists where a flat sequence of
    ints is due.  And the amount of padding is off: with [pad_shape] read
    per axis, the code pads by [4 % 3 = 1] frame to five frames, which is
    not a multiple of 3, so the reshape is refused. *)
Theorem TimeReduction_forward_factor_three_raises :
  forward 3 Examples.four_frames = Raise TypeError
  /\ (forall r xs, is_ok (forward r xs) = false)
  /\ forward_per_axis 3 Examples.four_frames = Raise RuntimeError
  /\ xlen (pad_time (Z.to_nat (4 mod 3)) Examples.four_frames) = 5%nat
  /\ (5 `mod` 3 <> 0)%nat
  /\ ceil_div 4 3 = 2%nat.
Proof.
  split; [reflexivity|]. split.
  { intros r xs. rewrite forward_raises. by destruct (decide (r = 0)). }
  repeat split; try reflexivity. discriminate.
Qed.

End TimeReductionFacts.

(** ** LayerNormRNN *)

Section LayerNormRNNFacts.
Import LayerNormRNN.

(** [nn.Sequential] is always handed the list [[nn.Linear(...)]] among its
    arguments, so building any layer raises. *)
Lemma init_raises input_size hidden_size num_layers dropout proj_size trs :
  (0 < num_layers)%nat ->
  is_ok (init input_size hidden_size num_layers dropout proj_size trs) = false
  /\ ((0 <= dropout <= 1)%R ->
      init input_size hidden_size num_layers dropout proj_size trs
      = Raise TypeError).
Proof.
  intros Hn. destruct num_layers as [|n]; [lia|].
  unfold init. cbn [seq init_layers]. unfold nn_Dropout.
  destruct (Rlt_dec dropout 0); [split; [done|intros; lra]|].
  destruct (Rlt_dec 1 dropout); [split; [done|intros; lra]|].
  destruct trs as [trs|]; [destruct (bool_decide _)|]; by split.
Qed.

Lemma forward_loop_spec_loop {X S} (rnns : list (@rnn X S)) (projs : list (@proj X))
    hiddens xs acc :
  forward_loop rnns projs hiddens xs acc
  = spec_loop rnns ((fun _ xs => xs) <$> projs) hiddens xs acc.
Proof.
  revert projs hiddens xs acc.
  induction rnns as [|r rnns IH]; intros [|p projs] [|hd hiddens] xs acc;
    try reflexivity.
  cbn [forward_loop spec_loop fmap list_fmap].
  destruct (r xs hd) as [xs' nh]. apply IH.
Qed.

(** [forward] never applies a layer's pipeline: on whatever lists of layers
    and pipelines it is run, it computes what the described stack computes
    when every pipeline is replaced by the identity. *)
Lemma forward_skips_projs {X S} (rnns : list (@rnn X S))
    (projs : list (@proj X)) (xs : X) hiddens :
  forward rnns projs xs hiddens
  = spec_forward rnns ((fun _ xs => xs) <$> projs) xs hiddens.
Proof.
  unfold forward, spec_forward. by rewrite forward_loop_spec_loop.
Qed.

(** C5 (the code departs from it): no stack of layers is ever built, so no
    input is taken through a layer and its pipeline.  The constructor raises
    for the encoder of [Transducerv2] (eight layers of width 2048 projected
    to 640, a time reduction after the second) as for every number of layers
    from one on, because [nn.Sequential] is handed the list
    [[nn.Linear(...)]]; the only object it builds has no layer, and on that
    object [forward] raises [ValueError] for every input.  Besides,
    [forward] binds each pipeline and never applies it. *)
Theorem LayerNormRNN_builds_no_stack :
  init 40 2048 8 0 (Some 640%nat) (Some [1%nat]) = Raise TypeError
  /\ (forall input_size hidden_size num_layers dropout proj_size trs,
        match init input_size hidden_size num_layers dropout proj_size trs with
        | Ok (rnns, projs) => num_layers = 0%nat /\ rnns = [] /\ projs = []
        | Raise _ => (0 < num_layers)%nat
        end)
  /\ (forall (X S : Type) (xs : X) (hiddens : option (list (option (S * S)))),
        forward [] [] xs hiddens = Raise ValueError)
  /\ (forall (X S : Type) (rnns : list (@rnn X S)) (projs : list (@proj X))
             (xs : X) hiddens,
        forward rnns projs xs hiddens
        = spec_forward rnns ((fun _ xs => xs) <$> projs) xs hiddens).
Proof.
  split; [|split; [|split]].
  - apply init_raises; [lia|lra].
  - intros input_size hidden_size [|n] dropout proj_size trs.
    + cbn. done.
    + pose proof (proj1 (init_raises input_size hidden_size (S n) dropout
                           proj_size trs ltac:(lia))) as HR.
      destruct (init _ _ (S n) _ _ _) as [[rnns projs]|e]; [done|lia].
  - intros X S xs hiddens. unfold forward. by destruct hiddens.
  - intros X S rnns projs xs hiddens. apply forward_skips_projs.
Qed.

(** On a one-layer stack whose pipeline adds one, the code returns the
    recurrent layer's output and the described stack that output plus one. *)
Lemma forward_differs_from_spec :
  forward [LayerExamples.pass_rnn] [LayerExamples.add_one] 0%R None
    = Ok (0%R, ([0%R], [0%R]))
  /\ spec_forward [LayerExamples.pass_rnn] [LayerExamples.add_one] 0%R None
    = Ok ((0 + 1)%R, ([0%R], [0%R])).
Proof. split; reflexivity. Qed.

End LayerNormRNNFacts.

(** ** log_aplusb *)

Section LogSumExp.
Local Open Scope R_scope.

Lemma log_aplusb_ordered (a b : R) :
  a <= b -> b + ln (1 + exp (a - b)) = ln (exp a + exp b).
Proof.
  intros Hab.
  rewrite <- (ln_exp b) at 1.
  rewrite <- ln_mult.
  - f_equal. rewrite Rmult_plus_distr_l, <- exp_plus.
    replace (b + (a - b)) with a by lra. lra.
  - apply exp_pos.
  - pose proof (exp_pos (a - b)). lra.
Qed.

Lemma log_aplusb_eq (a b : R) : log_aplusb a b = ln (exp a + exp b).
Proof.
  unfold log_aplusb. destruct (Rle_dec a b) as [Hab|Hab].
  - rewrite Rmax_right by done.
    rewrite Rabs_left1 by lra.
    replace (- - (a - b)) with (a - b) by lra.
    by apply log_aplusb_ordered.
  - rewrite Rmax_left by lra.
    rewrite Rabs_right by lra.
    replace (- (a - b)) with (b - a) by lra.
    rewrite (Rplus_comm (exp a)). apply log_aplusb_ordered. lra.
Qed.

(** C9: over the reals, [log_aplusb a b] is [log (exp a + exp b)], and
    merging a correction [c] into a log-probability [p] gives at least [p]. *)
Theorem log_aplusb_is_log_sum_exp :
  (forall a b : R, log_aplusb a b = ln (exp a + exp b))
  /\ (forall p c : R, log_aplusb p c >= p).
Proof.
  split; [apply log_aplusb_eq|].
  intros p c. rewrite log_aplusb_eq.
  rewrite <- (ln_exp p) at 2. apply Rle_ge, Rlt_le, ln_increasing.
  - apply exp_pos.
  - pose proof (exp_pos c). lra.
Qed.

End LogSumExp.

(** ** Log-softmax and its maximum *)

Section LogSoftmax.
Import Torch.
Local Open Scope R_scope.

Lemma rsum_exp_nonneg (xs : list R) : 0 <= rsum (exp <$> xs).
Proof.
  induction xs as [|y ys IH]; cbn; [lra|].
  pose proof (exp_pos y). unfold rsum in IH. lra.
Qed.

Lemma rsum_exp_pos (xs : list R) : xs <> [] -> 0 < rsum (exp <$> xs).
Proof.
  destruct xs as [|y ys]; [done|]. intros _. cbn.
  pose proof (exp_pos y). pose proof (rsum_exp_nonneg ys). unfold rsum in *. lra.
Qed.

Lemma rsum_exp_ge (xs : list R) (x : R) : x ∈ xs -> exp x <= rsum (exp <$> xs).
Proof.
  induction 1 as [x ys|x y ys _ IH]; cbn.
  - pose proof (rsum_exp_nonneg ys). unfold rsum in *. lra.
  - pose proof (exp_pos y). unfold rsum in *. lra.
Qed.

Lemma rsum_exp_gt (xs : list R) (x : R) :
  x ∈ xs -> (2 <= length xs)%nat -> exp x < rsum (exp <$> xs).
Proof.
  intros Hin Hlen. destruct Hin as [x ys|x y ys Hin]; cbn.
  - assert (ys <> []) as Hne by (destruct ys; [cbn in Hlen; lia|done]).
    pose proof (rsum_exp_pos ys Hne). unfold rsum in *. lra.
  - pose proof (exp_pos y). pose proof (rsum_exp_ge ys x Hin). unfold rsum in *. lra.
Qed.

Lemma ln_monotone (x y : R) : 0 < x -> x <= y -> ln x <= ln y.
Proof.
  intros Hx [Hlt| ->]; [|lra]. left. by apply ln_increasing.
Qed.

(** Every entry of a log-softmax is at most zero. *)
Lemma log_softmax_nonpos (xs : list R) (x : R) : x ∈ log_softmax xs -> x <= 0.
Proof.
  unfold log_softmax. intros (y & -> & Hy)%list_elem_of_fmap.
  pose proof (rsum_exp_ge xs y Hy) as Hle.
  pose proof (ln_monotone _ _ (exp_pos y) Hle) as Hln. rewrite ln_exp in Hln. lra.
Qed.

(** With two entries or more, every entry is below zero. *)
Lemma log_softmax_neg (xs : list R) (x : R) :
  (2 <= length xs)%nat -> x ∈ log_softmax xs -> x < 0.
Proof.
  unfold log_softmax. intros Hlen (y & -> & Hy)%list_elem_of_fmap.
  pose proof (rsum_exp_gt xs y Hy Hlen) as Hlt.
  pose proof (ln_increasing _ _ (exp_pos y) Hlt) as Hln. rewrite ln_exp in Hln. lra.
Qed.

Lemma max_from_elem (i : Z) (best : R) (besti : Z) (xs : list R) :
  (max_from i best besti xs).1 = best \/ (max_from i best besti xs).1 ∈ xs.
Proof.
  revert i best besti. induction xs as [|x xs IH]; intros i best besti; cbn.
  - by left.
  - destruct (Rlt_dec best x).
    + destruct (IH (i + 1)%Z x i) as [->|?]; right; [left|by right].
    + destruct (IH (i + 1)%Z best besti) as [->|?]; [by left|right; by right].
Qed.

(** The value [torch.max] returns is an entry of the row. *)
Lemma max_elem (xs : list R) : xs <> [] -> (max xs).1 ∈ xs.
Proof.
  destruct xs as [|x xs]; [done|]. intros _. cbn.
  destruct (max_from_elem 1 x 0 xs) as [->|?]; [left|by right].
Qed.

Lemma max_log_softmax_nonpos (xs : list R) : (max (log_softmax xs)).1 <= 0.
Proof.
  destruct xs as [|x xs]; [cbn; lra|].
  apply (log_softmax_nonpos (x :: xs)), max_elem. done.
Qed.

Lemma max_log_softmax_neg (xs : list R) :
  (2 <= length xs)%nat -> (max (log_softmax xs)).1 < 0.
Proof.
  intros Hlen. apply (log_softmax_neg xs _ Hlen), max_elem.
  destruct xs; [cbn in Hlen; lia|done].
Qed.

Lemma rsum_nonpos (xs : list R) : Forall (fun x => x <= 0) xs -> rsum xs <= 0.
Proof. induction 1; cbn; [lra|]. unfold rsum in *. lra. Qed.

Lemma rsum_neg (xs : list R) :
  xs <> [] -> Forall (fun x => x < 0) xs -> rsum xs < 0.
Proof.
  intros Hne Hall. destruct Hall as [|x xs Hx Hxs]; [done|]. cbn.
  assert (rsum xs <= 0) as Hle.
  { apply rsum_nonpos. eapply Forall_impl; [exact Hxs|]. cbn. intros; lra. }
  unfold rsum in *. lra.
Qed.

Lemma rsum_app (xs ys : list R) : rsum (xs ++ ys) = rsum xs + rsum ys.
Proof. unfold rsum. induction xs as [|x xs IH]; cbn; lra. Qed.

End LogSoftmax.

(** ** Shapes in the decoding loop *)

Section Shapes.
Import Torch Transducer.

Lemma length_run_layer cell xs hc : length (run_layer cell xs hc).1 = length xs.
Proof.
  revert hc. induction xs as [|x xs IH]; intros hc; [done|]. cbn.
  specialize (IH (cell x hc)). destruct (run_layer cell xs (cell x hc)). cbn in *. lia.
Qed.

Lemma layer_forward_shape cell xs h c B :
  length xs = B -> length h = B -> length c = B ->
  length (layer_forward cell xs h c).1 = B
  /\ length (layer_forward cell xs h c).2.1 = B
  /\ length (layer_forward cell xs h c).2.2 = B
  /\ Forall2 (fun o x => length o = length x) (layer_forward cell xs h c).1 xs.
Proof.
  intros Hx Hh Hc. unfold layer_forward. cbn.
  rewrite !length_fmap, !length_zip_with, Hx, Hh, Hc.
  repeat split; try lia.
  apply Forall2_same_length_lookup_2.
  - rewrite length_fmap, !length_zip_with. lia.
  - intros i o x. rewrite list_lookup_fmap, lookup_zip_with.
    intros Ho Hxi. rewrite Hxi in Ho. cbn in Ho.
    destruct (zip h c !! i); cbn in Ho; [|done].
    injection Ho as <-. apply length_run_layer.
Qed.

Lemma lstm_layers_shape cs_ xs hs cs B :
  length xs = B -> rect B hs -> rect B cs ->
  length hs = length cs_ -> length cs = length cs_ ->
  length (lstm_layers cs_ xs hs cs).1 = B
  /\ length (lstm_layers cs_ xs hs cs).2.1 = length cs_
  /\ length (lstm_layers cs_ xs hs cs).2.2 = length cs_
  /\ rect B (lstm_layers cs_ xs hs cs).2.1
  /\ rect B (lstm_layers cs_ xs hs cs).2.2
  /\ Forall2 (fun o x => length o = length x) (lstm_layers cs_ xs hs cs).1 xs.
Proof.
  revert xs hs cs. induction cs_ as [|cell cs_ IH]; intros xs hs cs Hx Hh Hc Lh Lc.
  - cbn. repeat split; try done; try constructor.
    apply Forall2_same_length_lookup_2; [done|]. by intros i o x -> [= ->].
  - destruct hs as [|h hs]; [done|]. destruct cs as [|c cs]; [done|].
    cbn [lstm_layers].
    apply Forall_cons in Hh as [Hh Hhs]. apply Forall_cons in Hc as [Hc Hcs].
    destruct (layer_forward_shape cell xs h c B Hx Hh Hc) as (S1 & S2 & S3 & S4).
    destruct (layer_forward cell xs h c) as [out [h' c']]. cbn in S1, S2, S3, S4.
    cbn in Lh, Lc.
    destruct (IH out hs cs S1 Hhs Hcs ltac:(lia) ltac:(lia))
      as (T1 & T2 & T3 & T4 & T5 & T6).
    destruct (lstm_layers cs_ out hs cs) as [final [hs'' cs'']]. cbn in *.
    repeat split; try lia; try (constructor; done).
    eapply Forall2_trans; [|exact T6|exact S4]. cbn. congruence.
Qed.

Lemma rect_zero_state l B : rect B (zero_state l B).
Proof.
  unfold rect, zero_state. apply Forall_forall.
  intros row Hrow%elem_of_replicate. destruct Hrow as [-> _].
  apply length_replicate.
Qed.

Lemma lstm_forward_None_shape l xs :
  let r := lstm_forward l xs None in
  length r.1 = length xs
  /\ length r.2.1 = length (cells l) /\ length r.2.2 = length (cells l)
  /\ rect (length xs) r.2.1 /\ rect (length xs) r.2.2
  /\ Forall2 (fun o x => length o = length x) r.1 xs.
Proof.
  cbn. unfold lstm_forward.
  apply lstm_layers_shape; auto using rect_zero_state;
    unfold zero_state; by rewrite length_replicate.
Qed.

Lemma shape1_same_lengths {A C} (t : list (list A)) (u : list (list C)) :
  Forall2 (fun o x => length o = length x) t u -> shape1 t = shape1 u.
Proof. by destruct 1. Qed.

Lemma length_encode m xs : length (encode m xs) = length xs.
Proof.
  unfold encode. rewrite length_fmap.
  apply (lstm_forward_None_shape (encoder m) xs).
Qed.

Lemma shape1_encode m xs : shape1 (encode m xs) = shape1 xs.
Proof.
  unfold encode.
  destruct (lstm_forward_None_shape (encoder m) xs) as (_ & _ & _ & _ & _ & HF).
  rewrite <- (shape1_same_lengths _ _ HF).
  destruct (lstm_forward (encoder m) xs None).1; [done|]. cbn. apply length_fmap.
Qed.

Lemma init_state_shape m B : state_shape m B (init_state m B).
Proof.
  unfold init_state, state_shape.
  pose proof (lstm_forward_None_shape (decoder m)
                ((fun row : list Z => embed m <$> row) <$> replicate B [Tokenizer.BOS]))
    as HS.
  cbn zeta in HS. rewrite length_fmap, length_replicate in HS.
  destruct (lstm_forward _ _ None) as [hp [hh cc]]. cbn in *. tauto.
Qed.

Lemma length_masked {A} (mask : list bool) (old new : list A) B :
  length mask = B -> length old = B -> length new = B ->
  length (masked mask old new) = B.
Proof.
  intros. unfold masked. rewrite !length_zip_with. lia.
Qed.

Lemma rect_zip_masked {A} (mask : list bool) (old new : list (list A)) B :
  length mask = B -> rect B old -> rect B new ->
  rect B (zip_with (masked mask) old new).
Proof.
  intros Hm Ho Hn. apply Forall_lookup. intros l row.
  rewrite lookup_zip_with. intros Hrow.
  destruct (old !! l) as [o|] eqn:Eo; [|done]. cbn in Hrow.
  destruct (new !! l) as [n|] eqn:En; [|done]. cbn in Hrow.
  injection Hrow as <-.
  apply length_masked; [done| |].
  - apply (Forall_lookup_1 _ _ _ _ Ho Eo).
  - apply (Forall_lookup_1 _ _ _ _ Hn En).
Qed.

Lemma length_step_max m enc_i st B :
  length enc_i = B -> length (h_pre st) = B -> length (step_max m enc_i st) = B.
Proof.
  intros He Hp. unfold step_max, column.
  rewrite !length_fmap, length_zip_with, length_fmap. lia.
Qed.

Lemma step_candidate_shape m pred st B :
  length pred = B -> state_shape m B st ->
  let r := step_candidate m pred st in
  length r.1 = B
  /\ length r.2.1 = length (cells (decoder m))
  /\ length r.2.2 = length (cells (decoder m))
  /\ rect B r.2.1 /\ rect B r.2.2.
Proof.
  intros Hp (S1 & S2 & S3 & S4 & S5). cbn. unfold step_candidate, lstm_forward.
  pose proof (lstm_layers_shape (cells (decoder m))
                ((fun p => [embed m p]) <$> pred) (h st) (c st) B) as HS.
  rewrite length_fmap in HS. specialize (HS Hp S4 S5 S2 S3). tauto.
Qed.

Lemma greedy_step_shape m enc_i st B pred prob st' :
  length enc_i = B -> state_shape m B st ->
  greedy_step m enc_i st = (pred, prob, st') ->
  length pred = B /\ length prob = B /\ state_shape m B st'.
Proof.
  intros He HS. unfold greedy_step.
  pose proof (length_step_max m enc_i st B He (proj1 HS)) as Hmx.
  set (mx := step_max m enc_i st) in *.
  assert (length (mx.*2) = B) as Hpred by by rewrite length_fmap.
  pose proof (step_candidate_shape m (mx.*2) st B Hpred HS) as HC. cbn zeta in HC.
  destruct (step_candidate m (mx.*2) st) as [nhp [nh nc]]. cbn in HC.
  destruct HC as (C1 & C2 & C3 & C4 & C5).
  destruct HS as (S1 & S2 & S3 & S4 & S5).
  intros [= <- <- <-]. rewrite !length_fmap.
  assert (length (non_blank m (mx.*2)) = B) as Hmask
    by (unfold non_blank; by rewrite length_fmap).
  repeat split; try done; cbn.
  - by apply length_masked.
  - rewrite length_zip_with. lia.
  - rewrite length_zip_with. lia.
  - by apply rect_zip_masked.
  - by apply rect_zip_masked.
Qed.

Lemma length_column {A} `{Inhabited A} i (t : list (list A)) :
  length (column i t) = length t.
Proof. unfold column. apply length_fmap. Qed.

Lemma greedy_loop_shape m h_enc idxs st y_seq log_p fin :
  state_shape m (length h_enc) st ->
  greedy_loop m h_enc idxs st = (y_seq, log_p, fin) ->
  rect (length h_enc) y_seq /\ rect (length h_enc) log_p
  /\ length y_seq = length idxs /\ length log_p = length idxs
  /\ state_shape m (length h_enc) fin.
Proof.
  revert st y_seq log_p fin.
  induction idxs as [|i idxs IH]; intros st y_seq log_p fin HS; cbn.
  - intros [= <- <- <-].
    split; [apply Forall_nil_2|]. split; [apply Forall_nil_2|]. done.
  - destruct (greedy_step m (column i h_enc) st) as [[pred prob] st'] eqn:Es.
    destruct (greedy_step_shape _ _ _ _ _ _ _ (length_column i h_enc) HS Es)
      as (P1 & P2 & P3).
    destruct (greedy_loop m h_enc idxs st') as [[ys ps] fin'] eqn:El.
    destruct (IH _ _ _ _ P3 El) as (I1 & I2 & I3 & I4 & I5).
    intros [= <- <- <-]. cbn.
    split; [by constructor|]. split; [by constructor|].
    split; [lia|]. split; [lia|]. done.
Qed.

Lemma length_stack_rows {A} B (ts : list (list A)) :
  rect B ts -> length (stack_rows B ts) = B.
Proof.
  induction 1 as [|t ts Ht _ IH]; cbn.
  - apply length_replicate.
  - rewrite length_zip_with. lia.
Qed.

Lemma rows_stack_rows {A} B (ts : list (list A)) :
  rect B ts -> rect (length ts) (stack_rows B ts).
Proof.
  induction 1 as [|t ts Ht _ IH]; cbn.
  - apply Forall_forall. by intros row [-> _]%elem_of_replicate.
  - apply Forall_lookup. intros b row. rewrite lookup_zip_with.
    destruct (t !! b); [|done]. cbn.
    destruct (stack_rows B ts !! b) as [r|] eqn:Er; [|done]. cbn.
    intros [= <-]. cbn. f_equal. apply (Forall_lookup_1 _ _ _ _ IH Er).
Qed.

(** Every entry of a stacked matrix is an entry of one of the stacked
    vectors. *)
Lemma Forall_stack_rows {A} (P : A -> Prop) B (ts : list (list A)) :
  Forall (Forall P) ts -> Forall (Forall P) (stack_rows B ts).
Proof.
  induction 1 as [|t ts Ht _ IH]; cbn.
  - apply Forall_forall. intros row [-> _]%elem_of_replicate. constructor.
  - apply Forall_lookup. intros b row. rewrite lookup_zip_with.
    destruct (t !! b) as [x|] eqn:Ex; [|done]. cbn.
    destruct (stack_rows B ts !! b) as [r|] eqn:Er; [|done]. cbn.
    intros [= <-]. constructor.
    + apply (Forall_lookup_1 _ _ _ _ Ht Ex).
    + apply (Forall_lookup_1 _ _ _ _ IH Er).
Qed.

End Shapes.

(** ** greedy_decode: results and errors *)

Section GreedyDecode.
Import Torch Transducer.

Lemma run_loop_shape m xs :
  rect (length xs) (run_loop m xs).1 /\ rect (length xs) (run_loop m xs).2
  /\ length (run_loop m xs).1 = shape1 xs
  /\ length (run_loop m xs).2 = shape1 xs.
Proof.
  unfold run_loop.
  pose proof (greedy_loop_shape m (encode m xs) (seq 0 (shape1 (encode m xs)))
                (init_state m (length xs))) as HG.
  rewrite length_encode in HG.
  destruct (greedy_loop m (encode m xs) (seq 0 (shape1 (encode m xs)))
              (init_state m (length xs))) as [[ys ps] fin].
  destruct (HG _ _ _ (init_state_shape m (length xs)) eq_refl)
    as (I1 & I2 & I3 & I4 & _).
  rewrite length_seq, shape1_encode in I3, I4. cbn. done.
Qed.

(** With one time step or more and a vocabulary that holds [BOS],
    [greedy_decode] returns: the truncated and filtered rows of the token
    record, and the negated row sums of the log-probability record. *)
Lemma greedy_decode_ok m xs xlen :
  shape1 xs <> 0%nat -> Tokenizer.BOS < Z.of_nat (vocab_size m) ->
  greedy_decode m xs xlen
  = Ok (truncate_and_filter m (token_record m xs) xlen,
        Ropp <$> (rsum <$> log_prob_record m xs)).
Proof.
  intros HT HV. unfold greedy_decode, token_record, log_prob_record.
  destruct (decide (shape1 xs = 0%nat)) as [|_]; [done|].
  destruct (decide (Z.of_nat (vocab_size m) <= Tokenizer.BOS)) as [|_]; [lia|].
  destruct (run_loop_shape m xs) as (R1 & R2 & R3 & R4).
  destruct (run_loop m xs) as [ys ps]. cbn in *.
  destruct ys as [|y ys]; [cbn in R3; lia|].
  destruct ps as [|p ps]; [cbn in R4; lia|].
  apply Forall_cons in R1 as [R1 _]. apply Forall_cons in R2 as [R2 _].
  unfold stack_dim1. by rewrite R1, R2.
Qed.

(** The two ways [greedy_decode] can raise, neither of which looks at
    [xlen]. *)
Lemma greedy_decode_cases m xs xlen :
  match greedy_decode m xs xlen with
  | Ok r =>
      shape1 xs <> 0%nat /\ Tokenizer.BOS < Z.of_nat (vocab_size m)
      /\ r = (truncate_and_filter m (token_record m xs) xlen,
              Ropp <$> (rsum <$> log_prob_record m xs))
  | Raise e =>
      (e = RuntimeError /\ shape1 xs = 0%nat)
      \/ (e = IndexError /\ shape1 xs <> 0%nat
          /\ Z.of_nat (vocab_size m) <= Tokenizer.BOS)
  end.
Proof.
  destruct (decide (shape1 xs = 0%nat)) as [HT|HT].
  { unfold greedy_decode. destruct (decide _); [|done]. by left. }
  destruct (decide (Z.of_nat (vocab_size m) <= Tokenizer.BOS)) as [HV|HV].
  { unfold greedy_decode. destruct (decide _); [done|].
    destruct (decide _); [|done]. by right. }
  rewrite greedy_decode_ok by (done || lia). repeat split; [done|lia].
Qed.

Lemma length_token_record m xs : length (token_record m xs) = length xs.
Proof. apply length_stack_rows, run_loop_shape. Qed.

Lemma length_log_prob_record m xs : length (log_prob_record m xs) = length xs.
Proof. apply length_stack_rows, run_loop_shape. Qed.

(** Every row of the two records has one entry per time step. *)
Lemma rows_token_record m xs : rect (shape1 xs) (token_record m xs).
Proof.
  destruct (run_loop_shape m xs) as (R1 & _ & R3 & _).
  rewrite <- R3. by apply rows_stack_rows.
Qed.

Lemma rows_log_prob_record m xs : rect (shape1 xs) (log_prob_record m xs).
Proof.
  destruct (run_loop_shape m xs) as (_ & R2 & _ & R4).
  rewrite <- R4. by apply rows_stack_rows.
Qed.

Lemma lookup_truncate_and_filter m y_seq xlen b :
  truncate_and_filter m y_seq xlen !! b
  = (row ← y_seq !! b; L ← xlen !! b;
     Some (filter (fun tok => tok ≠ blank m) (slice_to L row))).
Proof. unfold truncate_and_filter. apply lookup_zip_with. Qed.

Lemma length_truncate_and_filter m y_seq xlen :
  length (truncate_and_filter m y_seq xlen)
  = Nat.min (length y_seq) (length xlen).
Proof. unfold truncate_and_filter. apply length_zip_with. Qed.

(** C3: every token sequence that [greedy_decode] returns is its element's
    per-step record, cut to the valid length, with the blank token stripped
    and nothing else: the tokens that remain are all there and in their
    order.  So no returned sequence holds the blank token (the id 0 when
    [blank] is left at its default [NUL]), and each is a subsequence of the
    element's record.  One sequence is returned for every element that has a
    valid length. *)
Theorem greedy_decode_returns_no_blank m xs xlen :
  match greedy_decode m xs xlen with
  | Ok (ys, _) =>
      length ys = Nat.min (length xs) (length xlen)
      /\ (forall b row L,
            token_record m xs !! b = Some row -> xlen !! b = Some L ->
            ys !! b = Some (filter (fun tok => tok ≠ blank m) (slice_to L row)))
      /\ Forall (fun seq => (blank m ∉ seq)
                            /\ (blank m = Tokenizer.NUL -> 0 ∉ seq)) ys
      /\ Forall2 (fun seq row => seq `sublist_of` row)
                 ys (take (length ys) (token_record m xs))
  | Raise _ => shape1 xs = 0%nat \/ Z.of_nat (vocab_size m) <= Tokenizer.BOS
  end.
Proof.
  pose proof (greedy_decode_cases m xs xlen) as HC.
  destruct (greedy_decode m xs xlen) as [[ys sc]|e]; [|tauto].
  destruct HC as (_ & _ & [= -> ->]). split; [|split; [|split]].
  - by rewrite length_truncate_and_filter, length_token_record.
  - intros b row L Hrow HL. by rewrite lookup_truncate_and_filter, Hrow, HL.
  - apply Forall_lookup. intros b seq. rewrite lookup_truncate_and_filter.
    destruct (token_record m xs !! b) as [row|]; [|done]. cbn.
    destruct (xlen !! b) as [L|]; [|done]. cbn. intros [= <-].
    assert (blank m ∉ filter (fun tok => tok ≠ blank m) (slice_to L row)) as Hb.
    { rewrite list_elem_of_filter. tauto. }
    split; [done|]. intros E. unfold Tokenizer.NUL in E. by rewrite <- E.
  - apply Forall2_same_length_lookup_2.
    + rewrite length_take, length_truncate_and_filter. lia.
    + intros b seq row. rewrite lookup_truncate_and_filter.
      intros Hseq [Hrow _]%lookup_take_Some. rewrite Hrow in Hseq. cbn in Hseq.
      destruct (xlen !! b) as [L|]; [|done]. cbn in Hseq. injection Hseq as <-.
      etrans; [apply sublist_filter|]. unfold slice_to.
      destruct (decide _); apply sublist_take.
Qed.

Lemma log_prob_record_nonpos m xs :
  Forall (Forall (fun p => (p <= 0)%R)) (log_prob_record m xs).
Proof.
  unfold log_prob_record. apply Forall_stack_rows.
  unfold run_loop. generalize (init_state m (length xs)).
  generalize (seq 0 (shape1 (encode m xs))). intros idxs.
  induction idxs as [|i idxs IH]; intros st; cbn; [constructor|].
  unfold greedy_step at 1.
  destruct (step_candidate m _ st) as [nhp [nh nc]].
  match goal with |- context [greedy_loop m _ idxs ?s] =>
    specialize (IH s); destruct (greedy_loop m _ idxs s) as [[ys ps] fin] end.
  cbn in *. constructor; [|done].
  unfold step_max. rewrite Forall_fmap, Forall_fmap, Forall_fmap.
  apply Forall_forall. intros v _. cbn. apply max_log_softmax_nonpos.
Qed.

(** C10: every score that [greedy_decode] returns is at least zero. *)
Theorem greedy_decode_scores_nonnegative m xs xlen :
  match greedy_decode m xs xlen with
  | Ok (_, neg_log_prob) => Forall (fun s => (0 <= s)%R) neg_log_prob
  | Raise _ => True
  end.
Proof.
  pose proof (greedy_decode_cases m xs xlen) as HC.
  destruct (greedy_decode m xs xlen) as [[ys sc]|e]; [|done].
  destruct HC as (_ & _ & [= -> ->]).
  rewrite Forall_fmap, Forall_fmap.
  eapply Forall_impl; [apply log_prob_record_nonpos|].
  intros row Hrow. cbn. pose proof (rsum_nonpos row Hrow). lra.
Qed.

End GreedyDecode.

(** ** greedy_decode and the number of valid lengths *)

Section LengthMismatch.
Import Torch Transducer.



End LengthMismatch.

(** ** The masked update of the predictor state *)

Section Masking.
Import Torch Transducer.

Lemma lookup_masked {A} (mask : list bool) (old new : list A) b :
  masked mask old new !! b
  = (m ← mask !! b; o ← old !! b; n ← new !! b; Some (if m : bool then n else o)).
Proof.
  unfold masked. rewrite !lookup_zip_with.
  destruct (mask !! b), (old !! b), (new !! b); done.
Qed.





End Masking.

(** ** Batch elements are decoded independently

    At every batch index the batched code computes what [elem_run] computes
    from that element's frames alone. *)

Section PerElement.
Import Torch Transducer.

Lemma layer_forward_at cell xs h c b x hb cb :
  xs !! b = Some x -> h !! b = Some hb -> c !! b = Some cb ->
  (layer_forward cell xs h c).1 !! b = Some (run_layer cell x (hb, cb)).1
  /\ (layer_forward cell xs h c).2.1 !! b = Some (run_layer cell x (hb, cb)).2.1
  /\ (layer_forward cell xs h c).2.2 !! b = Some (run_layer cell x (hb, cb)).2.2.
Proof.
  intros Hx Hh Hc. unfold layer_forward. cbn.
  rewrite !list_lookup_fmap, !lookup_zip_with, Hx, Hh, Hc. done.
Qed.

Lemma length_elem_layers cs_ x e :
  length (elem_layers cs_ x e).2 = Nat.min (length cs_) (length e).
Proof.
  revert x e. induction cs_ as [|cell cs_ IH]; intros x [|hc e]; try done.
  cbn. destruct (run_layer cell x hc) as [out fin].
  specialize (IH out e). destruct (elem_layers cs_ out e). cbn in *. lia.
Qed.

Lemma lstm_layers_at cs_ xs hs cs b x e :
  xs !! b = Some x -> layers_at b hs cs e ->
  (lstm_layers cs_ xs hs cs).1 !! b = Some (elem_layers cs_ x e).1
  /\ layers_at b (lstm_layers cs_ xs hs cs).2.1 (lstm_layers cs_ xs hs cs).2.2
       (elem_layers cs_ x e).2.
Proof.
  revert xs hs cs x e.
  induction cs_ as [|cell cs_ IH]; intros xs hs cs x e Hx [Hh Hc].
  - cbn. repeat split; try done; constructor.
  - destruct Hh as [|h hc hs e Hh Hhs].
    { inversion Hc; subst. cbn. repeat split; try done; constructor. }
    inversion Hc as [|c ? cs' ? Hc0 Hcs]; subst. clear Hc.
    cbn [lstm_layers elem_layers].
    destruct hc as [hb cb]. cbn in Hh, Hc0.
    destruct (layer_forward_at cell xs h c b x hb cb Hx Hh Hc0) as (L1 & L2 & L3).
    destruct (layer_forward cell xs h c) as [out [h' c']].
    destruct (run_layer cell x (hb, cb)) as [eout [hb' cb']]. cbn in L1, L2, L3.
    destruct (IH out hs cs' eout e L1 (conj Hhs Hcs)) as (I1 & I2 & I3).
    destruct (lstm_layers cs_ out hs cs') as [final [hs'' cs'']].
    destruct (elem_layers cs_ eout e) as [efinal e'']. cbn in *.
    repeat split; [done|by constructor|by constructor].
Qed.

Lemma layers_at_zero_state l B b :
  (b < B)%nat ->
  layers_at b (zero_state l B) (zero_state l B) (elem_zero_state l).
Proof.
  intros Hb. unfold layers_at, zero_state, elem_zero_state.
  induction (length (cells l)) as [|n [IH1 IH2]]; cbn.
  - split; constructor.
  - split; constructor; try done; cbn; by apply lookup_replicate_2.
Qed.

Lemma lstm_forward_None_at l xs b x :
  xs !! b = Some x ->
  (lstm_forward l xs None).1 !! b = Some (elem_layers (cells l) x (elem_zero_state l)).1
  /\ layers_at b (lstm_forward l xs None).2.1 (lstm_forward l xs None).2.2
       (elem_layers (cells l) x (elem_zero_state l)).2.
Proof.
  intros Hx. unfold lstm_forward. apply lstm_layers_at; [done|].
  apply layers_at_zero_state. by eapply lookup_lt_Some.
Qed.

Lemma encode_at m xs b x :
  xs !! b = Some x -> encode m xs !! b = Some (elem_encode m x).
Proof.
  intros Hx. unfold encode, elem_encode. rewrite list_lookup_fmap.
  by rewrite (proj1 (lstm_forward_None_at (encoder m) xs b x Hx)).
Qed.

Lemma init_state_at m B b :
  (b < B)%nat -> state_at m b (init_state m B) (elem_init m).
Proof.
  intros Hb. unfold init_state, elem_init, state_at.
  pose proof (lstm_forward_None_at (decoder m)
                ((fun row : list Z => embed m <$> row) <$> replicate B [Tokenizer.BOS])
                b [embed m Tokenizer.BOS]) as HL.
  rewrite list_lookup_fmap, lookup_replicate_2 in HL by done.
  destruct (HL eq_refl) as [H1 H2].
  destruct (lstm_forward _ _ None) as [hp [hh cc]]. cbn in *.
  repeat split; try done; try apply H2.
  rewrite length_elem_layers. unfold elem_zero_state. rewrite length_replicate. lia.
Qed.

Lemma step_max_at m enc_i st b v e :
  state_at m b st e -> enc_i !! b = Some v ->
  step_max m enc_i st !! b = Some (elem_max m v e).
Proof.
  intros (Hp & _ & _) Hv. unfold step_max, elem_max, column.
  rewrite !list_lookup_fmap, lookup_zip_with, Hv, list_lookup_fmap, Hp. done.
Qed.

Lemma Forall2_zip_masked {A C} (P : A -> C -> Prop) (mask : list bool)
    (old new : list (list A)) (eo en : list C) (b : nat) (bm : bool) :
  mask !! b = Some bm ->
  Forall2 (fun row x => exists a, row !! b = Some a /\ P a x) old eo ->
  Forall2 (fun row x => exists a, row !! b = Some a /\ P a x) new en ->
  length eo = length en ->
  Forall2 (fun row x => exists a, row !! b = Some a /\ P a x)
          (zip_with (masked mask) old new) (if bm then en else eo).
Proof.
  intros Hm Ho. revert new en.
  induction Ho as [|o x old eo (a & Ha & Pa) _ IH]; intros new en Hn Hlen.
  - destruct en; [|done]. inversion Hn. destruct bm; constructor.
  - destruct Hn as [|n y new en (a' & Ha' & Pa') Hn]; [done|].
    cbn in Hlen. specialize (IH new en Hn ltac:(lia)). cbn.
    destruct bm; constructor; try done.
    + exists a'. rewrite lookup_masked, Hm, Ha, Ha'. done.
    + exists a. rewrite lookup_masked, Hm, Ha, Ha'. done.
Qed.

Lemma greedy_step_at m enc_i st b v e :
  state_at m b st e -> enc_i !! b = Some v ->
  (greedy_step m enc_i st).1.1 !! b = Some (elem_step m v e).1.1
  /\ (greedy_step m enc_i st).1.2 !! b = Some (elem_step m v e).1.2
  /\ state_at m b (greedy_step m enc_i st).2 (elem_step m v e).2.
Proof.
  intros HS Hv. pose proof (step_max_at m enc_i st b v e HS Hv) as Hmx.
  unfold greedy_step, elem_step.
  set (mx := step_max m enc_i st) in *.
  destruct (elem_max m v e) as [q p].
  assert (mx.*2 !! b = Some p) as Hp by by rewrite list_lookup_fmap, Hmx.
  assert (mx.*1 !! b = Some q) as Hq by by rewrite list_lookup_fmap, Hmx.
  destruct HS as (S1 & [S2 S3] & S4).
  pose proof (lstm_layers_at (cells (decoder m)) ((fun p => [embed m p]) <$> mx.*2)
                (h st) (c st) b [embed m p] e.2) as HC.
  rewrite list_lookup_fmap, Hp in HC. specialize (HC eq_refl (conj S2 S3)).
  pose proof (length_elem_layers (cells (decoder m)) [embed m p] e.2) as Hlen.
  unfold step_candidate, lstm_forward.
  destruct (lstm_layers _ _ (h st) (c st)) as [nhp [nh nc]].
  destruct (elem_layers (cells (decoder m)) [embed m p] e.2) as [enhp ne].
  cbn in HC, Hlen |- *. destruct HC as (C1 & C2 & C3).
  assert (non_blank m (mx.*2) !! b = Some (bool_decide (p ≠ blank m))) as Hm.
  { unfold non_blank. by rewrite list_lookup_fmap, Hp. }
  split; [done|]. split; [done|].
  unfold state_at. cbn [h_pre h c].
  rewrite lookup_masked, Hm, S1, C1. cbn.
  assert (length e.2 = length ne) as Hlen' by lia.
  assert (forall (f : Vec * Vec -> Vec) (old new : list (list Vec)),
             Forall2 (fun row hc => row !! b = Some (f hc)) old e.2 ->
             Forall2 (fun row hc => row !! b = Some (f hc)) new ne ->
             Forall2 (fun row hc => row !! b = Some (f hc))
               (zip_with (masked (non_blank m (mx.*2))) old new)
               (if bool_decide (p ≠ blank m) then ne else e.2)) as Hzip.
  { intros f old new Ho Hn.
    eapply Forall2_impl;
      [apply (Forall2_zip_masked (fun a hc => a = f hc) _ old new e.2 ne b _ Hm)|].
    - eapply Forall2_impl; [exact Ho|]. cbn. eauto.
    - eapply Forall2_impl; [exact Hn|]. cbn. eauto.
    - done.
    - cbn. by intros row hc (a & -> & ->). }
  destruct (bool_decide (p ≠ blank m)) eqn:Eb; cbn.
  - split; [done|]. split; [|lia]. split; [by apply (Hzip fst)|by apply (Hzip snd)].
  - split; [by destruct e|]. split; [|done].
    split; [by apply (Hzip fst)|by apply (Hzip snd)].
Qed.

Lemma column_at {A} `{Inhabited A} i (t : list (list A)) b row :
  t !! b = Some row -> column i t !! b = Some (row !!! i).
Proof. intros Hrow. unfold column. by rewrite list_lookup_fmap, Hrow. Qed.

Lemma greedy_loop_at m h_enc enc idxs st e b :
  h_enc !! b = Some enc -> state_at m b st e ->
  Forall2 (fun col y => col !! b = Some y)
          (greedy_loop m h_enc idxs st).1.1 (elem_loop m enc idxs e).1.1
  /\ Forall2 (fun col q => col !! b = Some q)
             (greedy_loop m h_enc idxs st).1.2 (elem_loop m enc idxs e).1.2
  /\ state_at m b (greedy_loop m h_enc idxs st).2 (elem_loop m enc idxs e).2.
Proof.
  intros Henc. revert st e.
  induction idxs as [|i idxs IH]; intros st e HS; cbn.
  - repeat split; try constructor; apply HS.
  - destruct (greedy_step_at m (column i h_enc) st b (enc !!! i) e HS
                (column_at i h_enc b enc Henc)) as (G1 & G2 & G3).
    destruct (greedy_step m (column i h_enc) st) as [[pred prob] st'].
    destruct (elem_step m (enc !!! i) e) as [[p q] e']. cbn in G1, G2, G3.
    destruct (IH st' e' G3) as (I1 & I2 & I3).
    destruct (greedy_loop m h_enc idxs st') as [[ys ps] fin].
    destruct (elem_loop m enc idxs e') as [[eys eps] efin]. cbn in *.
    repeat split; try (by constructor); apply I3.
Qed.

Lemma stack_rows_at {A} (B b : nat) (ts : list (list A)) (ys : list A) :
  (b < B)%nat -> Forall2 (fun col y => col !! b = Some y) ts ys ->
  stack_rows B ts !! b = Some ys.
Proof.
  intros Hb. induction 1 as [|t y ts ys Hy _ IH]; cbn.
  - by apply lookup_replicate_2.
  - by rewrite lookup_zip_with, Hy, IH.
Qed.

(** The rows of the two records are the per-element runs. *)
Lemma record_at m xs b x :
  xs !! b = Some x ->
  token_record m xs !! b = Some (elem_run m (shape1 xs) x).1
  /\ log_prob_record m xs !! b = Some (elem_run m (shape1 xs) x).2.
Proof.
  intros Hx. pose proof (lookup_lt_Some _ _ _ Hx) as Hb.
  unfold token_record, log_prob_record, run_loop, elem_run.
  rewrite shape1_encode.
  destruct (greedy_loop_at m (encode m xs) (elem_encode m x) (seq 0 (shape1 xs))
              (init_state m (length xs)) (elem_init m) b
              (encode_at m xs b x Hx) (init_state_at m (length xs) b Hb))
    as (G1 & G2 & _).
  split; by apply stack_rows_at.
Qed.

(** *** One element: lengths, prefixes and causality *)

Lemma elem_loop_length m enc idxs e :
  length (elem_loop m enc idxs e).1.1 = length idxs
  /\ length (elem_loop m enc idxs e).1.2 = length idxs.
Proof.
  revert e. induction idxs as [|i idxs IH]; intros e; cbn; [done|].
  destruct (elem_step m (enc !!! i) e) as [[p q] e'].
  specialize (IH e'). destruct (elem_loop m enc idxs e') as [[ys ps] fin].
  cbn in *. lia.
Qed.

Lemma elem_loop_app m enc idxs1 idxs2 e :
  (elem_loop m enc (idxs1 ++ idxs2) e).1.1
  = (elem_loop m enc idxs1 e).1.1
    ++ (elem_loop m enc idxs2 (elem_loop m enc idxs1 e).2).1.1.
Proof.
  revert e. induction idxs1 as [|i idxs1 IH]; intros e; cbn; [done|].
  destruct (elem_step m (enc !!! i) e) as [[p q] e'].
  specialize (IH e').
  destruct (elem_loop m enc (idxs1 ++ idxs2) e') as [[ys ps] fin].
  destruct (elem_loop m enc idxs1 e') as [[ys1 ps1] fin1]. cbn in *.
  by rewrite IH.
Qed.

(** The loop reads the encoder output only at the indices it visits. *)
Lemma elem_loop_ext m enc enc' idxs e :
  Forall (fun i => enc !!! i = enc' !!! i) idxs ->
  elem_loop m enc idxs e = elem_loop m enc' idxs e.
Proof.
  intros Hall. revert e. induction Hall as [|i idxs Hi _ IH]; intros e; cbn; [done|].
  rewrite Hi. destruct (elem_step m (enc' !!! i) e) as [[p q] e']. by rewrite IH.
Qed.

(** A recurrent layer is causal: its first [n] outputs depend on its first
    [n] inputs only. *)
Lemma run_layer_take cell n xs hc :
  take n (run_layer cell xs hc).1 = (run_layer cell (take n xs) hc).1.
Proof.
  revert n hc. induction xs as [|x xs IH]; intros [|n] hc; try done.
  cbn. specialize (IH n (cell x hc)).
  destruct (run_layer cell xs (cell x hc)).
  destruct (run_layer cell (take n xs) (cell x hc)). cbn in *. by rewrite IH.
Qed.

Lemma elem_layers_take cs_ n x e :
  take n (elem_layers cs_ x e).1 = (elem_layers cs_ (take n x) e).1.
Proof.
  revert x e. induction cs_ as [|cell cs_ IH]; intros x [|hc e]; try done.
  cbn. pose proof (run_layer_take cell n x hc) as HL.
  destruct (run_layer cell x hc) as [out fin].
  destruct (run_layer cell (take n x) hc) as [out' fin']. cbn in HL. subst out'.
  specialize (IH out e).
  destruct (elem_layers cs_ out e), (elem_layers cs_ (take n out) e). done.
Qed.

Lemma elem_encode_take m n x : take n (elem_encode m x) = elem_encode m (take n x).
Proof. unfold elem_encode. by rewrite <- fmap_take, elem_layers_take. Qed.

(** The tokens chosen at the first [L] steps depend on the first [L] frames
    only. *)
Lemma elem_run_prefix m T T' L x x' :
  (L <= T)%nat -> (L <= T')%nat -> take L x = take L x' ->
  take L (elem_run m T x).1 = take L (elem_run m T' x').1.
Proof.
  intros HT HT' Hx.
  assert (forall T x, (L <= T)%nat ->
            take L (elem_run m T x).1
            = (elem_loop m (take L (elem_encode m x)) (seq 0 L) (elem_init m)).1.1)
    as Hpre.
  { clear. intros T x HT. unfold elem_run.
    replace T with (L + (T - L))%nat at 1 by lia. rewrite seq_app.
    rewrite elem_loop_app.
    rewrite take_app_length'
      by (rewrite (proj1 (elem_loop_length _ _ _ _)); symmetry; apply length_seq).
    f_equal. f_equal. apply elem_loop_ext. apply Forall_forall.
    intros i [_ Hi]%elem_of_seq. symmetry. by apply lookup_total_take_lt. }
  rewrite (Hpre T x HT), (Hpre T' x' HT'), !elem_encode_take, Hx. done.
Qed.

Lemma elem_run_log_probs_neg m T x :
  (2 <= vocab_size m)%nat -> Forall (fun p => (p < 0)%R) (elem_run m T x).2.
Proof.
  intros Hv. unfold elem_run.
  generalize (elem_init m). generalize (seq 0 T). intros idxs.
  induction idxs as [|i idxs IH]; intros e; cbn; [constructor|].
  unfold elem_step at 1.
  pose proof (max_log_softmax_neg (joint m (vadd (elem_encode m x !!! i) (e.1 !!! 0%nat))))
    as Hneg.
  rewrite joint_width in Hneg. specialize (Hneg Hv).
  unfold elem_max. destruct (max _) as [q p]. cbn in Hneg.
  match goal with |- context [elem_loop m _ idxs ?s] =>
    specialize (IH s); destruct (elem_loop m _ idxs s) as [[ys ps] fin] end.
  cbn in *. by constructor.
Qed.

End PerElement.

(** ** Scores, truncation and padding *)

Section ScoresAndTruncation.
Import Torch Transducer.

Lemma slice_to_take {A} (L : Z) (l : list A) :
  0 <= L -> slice_to L l = take (Z.to_nat L) l.
Proof. intros HL. unfold slice_to. by rewrite decide_True. Qed.

Lemma length_elem_run m T x :
  length (elem_run m T x).1 = T /\ length (elem_run m T x).2 = T.
Proof.
  unfold elem_run.
  destruct (elem_loop_length m (elem_encode m x) (seq 0 T) (elem_init m)) as [H1 H2].
  by rewrite H1, H2, length_seq.
Qed.

(** The score the specification describes leaves out the steps after the
    valid length, each of which has a negative log-probability: it is below
    the sum over all steps. *)
Lemma spec_score_below m T x (L : Z) :
  (2 <= vocab_size m)%nat -> 0 <= L < Z.of_nat T ->
  (spec_score L (elem_run m T x).2 < - rsum (elem_run m T x).2)%R.
Proof.
  intros Hv HL. unfold spec_score. rewrite slice_to_take by lia.
  pose proof (elem_run_log_probs_neg m T x Hv) as Hneg.
  pose proof (proj2 (length_elem_run m T x)) as Hlen.
  set (row := (elem_run m T x).2) in *.
  rewrite <- (take_drop (Z.to_nat L) row) at 2. rewrite rsum_app.
  assert (rsum (drop (Z.to_nat L) row) < 0)%R as Hd.
  { apply rsum_neg.
    - intros E. apply (f_equal length) in E. rewrite length_drop in E. cbn in E. lia.
    - by apply Forall_drop. }
  lra.
Qed.

Lemma greedy_decode_scores_at m xs b x :
  xs !! b = Some x ->
  (Ropp <$> (rsum <$> log_prob_record m xs)) !! b
  = Some (- rsum (elem_run m (shape1 xs) x).2)%R.
Proof.
  intros Hx. rewrite !list_lookup_fmap.
  by rewrite (proj2 (record_at m xs b x Hx)).
Qed.

(** C1 (as the code has it): the score of every batch element is the
    negated sum of the log-probabilities chosen at all the time steps of the
    batch, blank steps included and the steps after the element's valid
    length not left out; the valid lengths have no influence on the scores.
    In particular elements with the same frames receive the same score,
    whatever their valid lengths. *)
Theorem greedy_decode_scores_sum_all_steps m xs xlen :
  match greedy_decode m xs xlen with
  | Ok (_, neg_log_prob) =>
      Forall2 (fun s x =>
                 let log_p := (elem_run m (shape1 xs) x).2 in
                 length log_p = shape1 xs /\ s = (- rsum log_p)%R)
              neg_log_prob xs
      /\ forall xlen',
           match greedy_decode m xs xlen' with
           | Ok (_, neg_log_prob') => neg_log_prob' = neg_log_prob
           | Raise _ => False
           end
  | Raise _ => True
  end.
Proof.
  pose proof (greedy_decode_cases m xs xlen) as HC.
  destruct (greedy_decode m xs xlen) as [[ys sc]|e]; [|done].
  destruct HC as (HT & HV & [= -> ->]). split.
  - apply Forall2_same_length_lookup_2.
    + by rewrite !length_fmap, length_log_prob_record.
    + intros b s x Hs Hx. rewrite (greedy_decode_scores_at m xs b x Hx) in Hs.
      injection Hs as <-. cbn. split; [apply length_elem_run|done].
  - intros xlen'. by rewrite greedy_decode_ok.
Qed.

(** C1 fails as stated: in a batch of three copies of one utterance of five
    frames with the valid lengths 5, 3, 5, the three scores are equal, and
    the score of the element of valid length 3 is not the negated sum of the
    log-probabilities of its first three steps. *)
Lemma greedy_decode_score_ignores_valid_length :
  exists ys s0 s1 s2 log_p,
    greedy_decode Examples.small Examples.batch3 Examples.lengths3
    = Ok (ys, [s0; s1; s2])
    /\ log_prob_record Examples.small Examples.batch3 !! 1%nat = Some log_p
    /\ s1 <> spec_score 3 log_p
    /\ s1 = s0 /\ s1 = s2.
Proof.
  set (r := (elem_run Examples.small 5 Examples.utterance).2).
  assert (forall b, (b < 3)%nat ->
            log_prob_record Examples.small Examples.batch3 !! b = Some r) as Hrec.
  { intros b Hb. apply (record_at Examples.small Examples.batch3 b Examples.utterance).
    destruct b as [|[|[|b]]]; try done; lia. }
  assert (log_prob_record Examples.small Examples.batch3 = [r; r; r]) as Erec.
  { pose proof (length_log_prob_record Examples.small Examples.batch3) as Hlen.
    pose proof (Hrec 0%nat ltac:(lia)) as H0. pose proof (Hrec 1%nat ltac:(lia)) as H1.
    pose proof (Hrec 2%nat ltac:(lia)) as H2.
    destruct (log_prob_record Examples.small Examples.batch3)
      as [|a0 [|a1 [|a2 [|a3 rest]]]]; try done.
    cbn in H0, H1, H2. congruence. }
  exists (truncate_and_filter Examples.small
            (token_record Examples.small Examples.batch3) Examples.lengths3),
    (- rsum r)%R, (- rsum r)%R, (- rsum r)%R, r.
  split; [|split; [by apply Hrec; lia|split; [|done]]].
  - rewrite greedy_decode_ok by done. by rewrite Erec.
  - pose proof (spec_score_below Examples.small 5 Examples.utterance 3) as Hlt.
    fold r in Hlt. specialize (Hlt ltac:(cbn; lia) ltac:(lia)). lra.
Qed.

(** C4: for a batch element of valid length [L] below the number of time
    steps, the record that is filtered has exactly [L] entries, and a batch
    that agrees with this one on the first [L] frames of that element (the
    frames after them, and all other elements, being arbitrary) yields the
    same record and the same returned token sequence for it. *)
Theorem greedy_decode_truncates_and_ignores_padding
    m xs xs' xlen xlen' b x x' (L : Z) :
  Tokenizer.BOS < Z.of_nat (vocab_size m) ->
  xs !! b = Some x -> xs' !! b = Some x' ->
  xlen !! b = Some L -> xlen' !! b = Some L ->
  0 <= L < Z.of_nat (shape1 xs) -> L < Z.of_nat (shape1 xs') ->
  take (Z.to_nat L) x = take (Z.to_nat L) x' ->
  exists row row' seq,
    token_record m xs !! b = Some row
    /\ token_record m xs' !! b = Some row'
    /\ length (slice_to L row) = Z.to_nat L
    /\ slice_to L row' = slice_to L row
    /\ seq = filter (fun tok => tok ≠ blank m) (slice_to L row)
    /\ (exists ys neg_log_prob,
          greedy_decode m xs xlen = Ok (ys, neg_log_prob) /\ ys !! b = Some seq)
    /\ (exists ys' neg_log_prob',
          greedy_decode m xs' xlen' = Ok (ys', neg_log_prob') /\ ys' !! b = Some seq).
Proof.
  intros HV Hx Hx' HL HL' HT HT' Hpre.
  destruct (record_at m xs b x Hx) as [Hrow _].
  destruct (record_at m xs' b x' Hx') as [Hrow' _].
  pose proof (proj1 (length_elem_run m (shape1 xs) x)) as Hlen.
  assert (slice_to L (elem_run m (shape1 xs') x').1
          = slice_to L (elem_run m (shape1 xs) x).1) as Hslice.
  { rewrite !slice_to_take by lia. symmetry. apply elem_run_prefix; [lia|lia|done]. }
  eexists _, _, _. split; [exact Hrow|]. split; [exact Hrow'|].
  split; [rewrite slice_to_take, length_take by lia; lia|].
  split; [exact Hslice|]. split; [reflexivity|]. split.
  - eexists _, _. split; [apply greedy_decode_ok; lia|].
    rewrite lookup_truncate_and_filter, Hrow, HL. done.
  - eexists _, _. split; [apply greedy_decode_ok; lia|].
    rewrite lookup_truncate_and_filter, Hrow', HL'. cbn. by rewrite Hslice.
Qed.

Lemma greedy_decode_truncates_and_ignores_padding_witness :
  Tokenizer.BOS < Z.of_nat (vocab_size Examples.small)
  /\ Examples.batch3 !! 1%nat = Some Examples.utterance
  /\ Examples.batch3_repadded !! 1%nat = Some Examples.utterance_repadded
  /\ Examples.lengths3 !! 1%nat = Some 3
  /\ 0 <= 3 < Z.of_nat (shape1 Examples.batch3)
  /\ 3 < Z.of_nat (shape1 Examples.batch3_repadded)
  /\ take (Z.to_nat 3) Examples.utterance
     = take (Z.to_nat 3) Examples.utterance_repadded
  /\ exists row row' seq,
       token_record Examples.small Examples.batch3 !! 1%nat = Some row
       /\ token_record Examples.small Examples.batch3_repadded !! 1%nat = Some row'
       /\ length (slice_to 3 row) = Z.to_nat 3
       /\ slice_to 3 row' = slice_to 3 row
       /\ seq = filter (fun tok => tok ≠ blank Examples.small) (slice_to 3 row)
       /\ (exists ys neg_log_prob,
             greedy_decode Examples.small Examples.batch3 Examples.lengths3
             = Ok (ys, neg_log_prob) /\ ys !! 1%nat = Some seq)
       /\ (exists ys' neg_log_prob',
             greedy_decode Examples.small Examples.batch3_repadded Examples.lengths3
             = Ok (ys', neg_log_prob') /\ ys' !! 1%nat = Some seq).
Proof.
  split; [reflexivity|]. split; [reflexivity|]. split; [reflexivity|].
  split; [reflexivity|]. split; [cbn; lia|]. split; [cbn; lia|].
  split; [reflexivity|].
  apply (greedy_decode_truncates_and_ignores_padding Examples.small
           Examples.batch3 Examples.batch3_repadded Examples.lengths3
           Examples.lengths3 1 Examples.utterance Examples.utterance_repadded 3);
    try reflexivity; cbn; lia.
Defined.

End ScoresAndTruncation.

(** ** The example transducer, run *)

Section SmallTransducer.
Import Torch Transducer.
Import Examples.
Local Open Scope R_scope.

Lemma small_max_blank (v : list R) :
  v !!! 0%nat < / 2 ->
  max (log_softmax (small_joint v)) = (1 - lse v, 0%Z).
Proof.
  intros Hv. unfold log_softmax. fold (lse v). generalize (lse v). intros s.
  unfold small_joint. cbn [fmap list_fmap max max_from].
  repeat (destruct (Rlt_dec _ _); [lra|]). done.
Qed.

Lemma small_max_three (v : list R) :
  / 2 < v !!! 0%nat ->
  max (log_softmax (small_joint v)) = (2 * (v !!! 0%nat) - lse v, 3%Z).
Proof.
  intros Hv. unfold log_softmax. fold (lse v). generalize (lse v). intros s.
  unfold small_joint. cbn [fmap list_fmap max max_from].
  repeat (destruct (Rlt_dec _ _); try lra); done.
Qed.

Lemma vadd_first (a b : R) (u v : list R) :
  vadd (a :: u) v !!! 0%nat = match v with [] => 0 | b :: _ => a + b end.
Proof. by destruct v. Qed.

(** On a quiet frame [small] chooses blank and keeps its state. *)
Lemma small_step_quiet (st : elem_state) :
  (st.1 !!! 0%nat) !!! 0%nat = 0 ->
  (elem_step small quiet st).1.1 = 0%Z /\ (elem_step small quiet st).2 = st.
Proof.
  intros H0. unfold elem_step, elem_max. cbn [joint small].
  rewrite small_max_blank; [done|].
  unfold quiet. rewrite vadd_first by exact 0.
  destruct (st.1 !!! 0%nat) as [|a l]; cbn in *; lra.
Qed.

(** On a loud frame [small] chooses token 3 and advances its state. *)
Lemma small_step_loud (st : elem_state) :
  (st.1 !!! 0%nat) !!! 0%nat = 0 -> st.1 !!! 0%nat <> [] ->
  (elem_step small loud st).1.1 = 3%Z
  /\ (elem_step small loud st).2
     = elem_layers (cells (decoder small)) [embed small 3] st.2.
Proof.
  intros H0 Hne. unfold elem_step, elem_max. cbn [joint small].
  rewrite small_max_three; [done|].
  unfold loud. rewrite vadd_first by exact 0.
  destruct (st.1 !!! 0%nat) as [|a l]; [done|]. cbn in *; lra.
Qed.


Lemma small_step_max_frames2 :
  (step_max small frames2 (init_state small 2)).*2 = [0%Z; 3%Z].
Proof.
  unfold step_max, frames2.
  set (hp := h_pre (init_state small 2)).
  assert (column 0 hp = [[0 + 0; IZR Tokenizer.BOS + 0]; [0 + 0; IZR Tokenizer.BOS + 0]])
    as -> by reflexivity.
  cbn [zip_with fmap list_fmap joint small].
  rewrite small_max_blank by (unfold quiet; cbn; lra).
  rewrite small_max_three by (unfold loud; cbn; lra).
  reflexivity.
Qed.

(** A batch of two at one step: the first element chooses blank and keeps
    its predictor output, the second chooses token 3 and takes the
    candidate, which differs from what it had. *)
Lemma small_step_masks_second_only :
  let st := init_state small 2 in
  let st' := (greedy_step small frames2 st).2 in
  let cand := step_candidate small [0%Z; 3%Z] st in
  (greedy_step small frames2 st).1.1 = [0%Z; 3%Z]
  /\ h_pre st' !! 0%nat = h_pre st !! 0%nat
  /\ h_pre st' !! 1%nat = cand.1 !! 1%nat
  /\ h_pre st' !! 1%nat <> h_pre st !! 1%nat
  /\ entry (h st') 0 0 = entry (h st) 0 0
  /\ entry (h st') 0 1 = entry cand.2.1 0 1.
Proof.
  cbn zeta. unfold greedy_step. rewrite small_step_max_frames2.
  cbv. repeat split; try reflexivity.
  intros [= H]. lra.
Qed.

Lemma elem_loop_tokens_cons m enc i idxs e :
  (elem_loop m enc (i :: idxs) e).1.1
  = (elem_step m (enc !!! i) e).1.1
    :: (elem_loop m enc idxs (elem_step m (enc !!! i) e).2).1.1.
Proof.
  cbn [elem_loop]. destruct (elem_step m (enc !!! i) e) as [[p q] e'].
  cbn [fst snd]. by destruct (elem_loop m enc idxs e') as [[ys ps] fin].
Qed.

(** The tokens that [small] chooses on the five frames of [utterance]. *)
Lemma small_tokens :
  (elem_run small 5 utterance).1 = [0; 0; 3; 0; 0]%Z.
Proof.
  unfold elem_run. change (elem_encode small utterance) with utterance.
  cbn [seq].
  assert (((elem_init small).1 !!! 0%nat) !!! 0%nat = 0) as H0 by (cbn; lra).
  assert ((elem_init small).1 !!! 0%nat <> []) as N0 by (cbn; discriminate).
  set (e3 := elem_layers (cells (decoder small)) [embed small 3] (elem_init small).2).
  assert ((e3.1 !!! 0%nat) !!! 0%nat = 0) as H3 by (cbn; lra).
  generalize dependent (elem_init small). intros e0 H0 N0 e3 H3.
  rewrite elem_loop_tokens_cons. change (utterance !!! 0%nat) with quiet.
  destruct (small_step_quiet e0 H0) as [-> ->].
  rewrite elem_loop_tokens_cons. change (utterance !!! 1%nat) with quiet.
  destruct (small_step_quiet e0 H0) as [-> ->].
  rewrite elem_loop_tokens_cons. change (utterance !!! 2%nat) with loud.
  destruct (small_step_loud e0 H0 N0) as [-> ->]. fold e3.
  rewrite elem_loop_tokens_cons. change (utterance !!! 3%nat) with quiet.
  destruct (small_step_quiet e3 H3) as [-> ->].
  rewrite elem_loop_tokens_cons. change (utterance !!! 4%nat) with quiet.
  destruct (small_step_quiet e3 H3) as [-> ->].
  done.
Qed.

(** Three copies of [utterance] with the valid lengths 5, 3, 5: each is
    decoded to the single token 3, which is chosen at the third of the five
    steps, and the three scores are one and the same number. *)
Lemma small_decodes_batch3 :
  exists s : R,
    greedy_decode small batch3 lengths3
    = Ok ([[3%Z]; [3%Z]; [3%Z]], [s; s; s]).
Proof.
  set (t := (elem_run small 5 utterance).1).
  set (r := (elem_run small 5 utterance).2).
  assert (forall b, (b < 3)%nat ->
            token_record small batch3 !! b = Some t
            /\ log_prob_record small batch3 !! b = Some r) as Hrec.
  { intros b Hb. apply (record_at small batch3 b utterance).
    destruct b as [|[|[|b]]]; try done; lia. }
  assert (token_record small batch3 = [t; t; t]) as Et.
  { pose proof (length_token_record small batch3) as Hlen.
    pose proof (proj1 (Hrec 0%nat ltac:(lia))) as H0.
    pose proof (proj1 (Hrec 1%nat ltac:(lia))) as H1.
    pose proof (proj1 (Hrec 2%nat ltac:(lia))) as H2.
    destruct (token_record small batch3) as [|a0 [|a1 [|a2 [|a3 rest]]]]; try done.
    cbn in H0, H1, H2. congruence. }
  assert (log_prob_record small batch3 = [r; r; r]) as Er.
  { pose proof (length_log_prob_record small batch3) as Hlen.
    pose proof (proj2 (Hrec 0%nat ltac:(lia))) as H0.
    pose proof (proj2 (Hrec 1%nat ltac:(lia))) as H1.
    pose proof (proj2 (Hrec 2%nat ltac:(lia))) as H2.
    destruct (log_prob_record small batch3) as [|a0 [|a1 [|a2 [|a3 rest]]]]; try done.
    cbn in H0, H1, H2. congruence. }
  exists (- rsum r). rewrite greedy_decode_ok by done. rewrite Et, Er.
  unfold t. rewrite small_tokens. reflexivity.
Qed.
End SmallTransducer.

(** * Further properties *)

(** ** Python strings *)

Section PyStrFacts.
Import PyStr.

Lemma append_cons (c : ascii) (s t : string) :
  String.append (String c s) t = String c (String.append s t).
Proof. done. Qed.

Lemma append_empty_l (t : string) : String.append EmptyString t = t.
Proof. done. Qed.

Lemma append_assoc (s t u : string) :
  String.append (String.append s t) u = String.append s (String.append t u).
Proof. induction s as [|c s IH]; [done|]. rewrite !append_cons. by rewrite IH. Qed.

Lemma join_app (ps qs : list string) :
  join (ps ++ qs) = String.append (join ps) (join qs).
Proof.
  induction ps as [|p ps IH]; [done|]. unfold join in *. cbn [app foldr].
  rewrite IH. symmetry. apply append_assoc.
Qed.

Lemma append_empty_r (s : string) : String.append s EmptyString = s.
Proof. induction s as [|c s IH]; [done|]. rewrite append_cons. by rewrite IH. Qed.

Lemma join_chars (s : string) : join (chars s) = s.
Proof.
  induction s as [|c s IH]; [done|]. unfold chars, join in *.
  cbn [list_ascii_of_string fmap list_fmap foldr].
  by rewrite append_cons, append_empty_l, IH.
Qed.

Lemma length_chars (s : string) : length (chars s) = String.length s.
Proof. induction s as [|c s IH]; [done|]. unfold chars in *. cbn. by rewrite IH. Qed.

Lemma prefix_length (old s : string) :
  String.prefix old s = true -> (String.length old <= String.length s)%nat.
Proof.
  revert s. induction old as [|c old IH]; intros [|d s]; cbn; try done; try lia.
  destruct (Ascii.ascii_dec c d); [|done]. intros H%IH. lia.
Qed.

Lemma prefix_empty (s : string) : String.prefix EmptyString s = true.
Proof. by destruct s. Qed.

Lemma prefix_app_l (old s t : string) :
  String.prefix old s = true -> String.prefix old (String.append s t) = true.
Proof.
  revert s. induction old as [|d old IH]; intros s; [intros _; apply prefix_empty|].
  destruct s as [|e s]; [done|].
  rewrite append_cons. cbn. destruct (Ascii.ascii_dec d e); [apply IH|done].
Qed.

(** A string that starts an occurrence of [old] which [s] itself is too
    short to hold: [s] is a beginning of [old] and the rest of [old] starts
    [t]. *)
Lemma prefix_app_inv (old s t : string) :
  String.prefix old (String.append s t) = true -> String.prefix old s = false ->
  exists v, v <> EmptyString /\ old = String.append s v /\ String.prefix v t = true.
Proof.
  revert old. induction s as [|c s IH]; intros old H1 H2.
  - destruct old as [|d old]; [done|]. by exists (String d old).
  - destruct old as [|d old]; [done|]. rewrite append_cons in H1. cbn in H1, H2.
    destruct (Ascii.ascii_dec d c) as [->|]; [|done].
    destruct (IH old H1 H2) as (v & Hv & -> & Hp). by exists v.
Qed.

(** Without an occurrence of [old], [replace] returns the string as it
    is. *)
Lemma replace_from_absent (old new s : string) :
  contains old s = false -> replace_from old new 0 s = s.
Proof.
  induction s as [|c s IH]; [done|]. cbn [contains replace_from].
  intros [H1 H2]%orb_false_elim. rewrite H1. by rewrite IH.
Qed.

Lemma replace_absent (old new s : string) :
  contains old s = false -> replace old new s = s.
Proof.
  destruct old as [|c old]; [by destruct s|]. apply replace_from_absent.
Qed.

(** The characters being passed are dropped. *)
Lemma replace_from_skip (old new u t : string) :
  replace_from old new (String.length u) (String.append u t)
  = replace_from old new 0 t.
Proof.
  induction u as [|c u IH]; [by destruct t|].
  rewrite append_cons. cbn [String.length replace_from]. apply IH.
Qed.

Lemma prefix_refl (s : string) : String.prefix s s = true.
Proof.
  induction s as [|c s IH]; [done|]. cbn.
  by destruct (Ascii.ascii_dec c c).
Qed.

(** An occurrence at the start is replaced, and the search goes on behind
    it. *)
Lemma replace_from_match (c : ascii) (old' new s : string) :
  replace_from (String c old') new 0 (String.append (String c old') s)
  = String.append new (replace_from (String c old') new 0 s).
Proof.
  rewrite append_cons. cbn [replace_from]. rewrite <- append_cons.
  rewrite (prefix_app_l _ _ s (prefix_refl (String c old'))).
  replace (String.length (String c old') - 1)%nat with (String.length old')
    by (cbn [String.length]; lia).
  by rewrite replace_from_skip.
Qed.

(** A character at which no occurrence starts is kept. *)
Lemma replace_from_keep (old new : string) (c : ascii) (s : string) :
  String.prefix old (String c s) = false ->
  replace_from old new 0 (String c s) = String c (replace_from old new 0 s).
Proof. intros H. cbn [replace_from]. by rewrite H. Qed.

(** When the first character of [old] does not come back in [old], no
    occurrence can reach across a place where that character stands: the
    replacement splits there. *)
Lemma replace_from_app (c0 : ascii) (rest new s t : string) (skip : nat) :
  char_absent c0 rest ->
  (t = EmptyString \/ exists t', t = String c0 t') ->
  (skip <= String.length s)%nat ->
  replace_from (String c0 rest) new skip (String.append s t)
  = String.append (replace_from (String c0 rest) new skip s)
                  (replace_from (String c0 rest) new 0 t).
Proof.
  intros Habs Ht. revert skip.
  induction s as [|c s IH]; intros skip Hskip.
  - cbn in Hskip. assert (skip = 0%nat) as -> by lia. done.
  - rewrite append_cons. cbn [replace_from]. destruct skip as [|k].
    + rewrite <- (append_cons c s t).
      destruct (String.prefix (String c0 rest) (String c s)) eqn:Hs.
      * rewrite (prefix_app_l _ _ t Hs).
        rewrite IH, append_assoc; [done|].
        apply prefix_length in Hs. cbn in Hs |- *. lia.
      * destruct (String.prefix (String c0 rest) (String.append (String c s) t))
          eqn:Hst.
        -- exfalso.
           destruct (prefix_app_inv _ _ _ Hst Hs) as (v & Hv & Eold & Hp).
           rewrite append_cons in Eold. injection Eold as E1 E2.
           destruct v as [|d v]; [done|].
           destruct Ht as [->|[t' ->]]; [done|]. cbn in Hp.
           destruct (Ascii.ascii_dec d c0) as [->|]; [|done].
           apply Habs. rewrite E2. clear.
           induction s as [|e s IHs]; [left|].
           rewrite append_cons. by right.
        -- cbn. by rewrite IH by lia.
    + cbn in Hskip. apply IH. lia.
Qed.

End PyStrFacts.

(** ** CharTokenizer.encode and CharTokenizer.decode *)

Section CharTokenizerFacts.
Import Tokenizer CharTokenizerMethods.

(** A property checked on the 256 characters holds of every character. *)
Lemma forall_ascii (P : ascii -> bool) :
  forallb (fun n => P (ascii_of_nat n)) (seq 0 256) = true ->
  forall c, P c = true.
Proof.
  intros H c. rewrite <- (ascii_nat_embedding c).
  rewrite forallb_forall in H. apply H. apply in_seq.
  pose proof (nat_ascii_bounded c). lia.
Qed.

Lemma chars_fmap (s : string) :
  PyStr.chars s = (fun c => String c EmptyString) <$> list_ascii_of_string s.
Proof. done. Qed.



Lemma list_ascii_of_lower (s : string) :
  list_ascii_of_string (PyStr.lower s) = PyStr.lower_char <$> list_ascii_of_string s.
Proof. induction s as [|c s IH]; [done|]. cbn. by rewrite IH. Qed.

(** X2: [encode] yields one id per character of the lower-cased text, and
    with a [max_length] those ids cut by Python's slice [[:max_length]]: a
    prefix of them, cut from the end when [max_length] is negative; nothing
    is appended. *)
Theorem encode_max_length (t : CharTokenizer) (text : string) :
  length (encode t text None) = String.length (PyStr.lower text)
  /\ forall n : Z,
       encode t text (Some n) = Transducer.slice_to n (encode t text None)
       /\ length (encode t text (Some n))
          = if decide (0 <= n)
            then Nat.min (Z.to_nat n) (length (encode t text None))
            else (length (encode t text None) - Z.to_nat (- n))%nat.
Proof.
  split.
  { unfold encode, PyStr.slice_to. by rewrite length_fmap, length_chars. }
  intros n.
  assert (encode t text (Some n) = Transducer.slice_to n (encode t text None)) as E.
  { unfold encode, PyStr.slice_to. rewrite !chars_fmap.
    rewrite list_ascii_of_string_of_list_ascii.
    unfold Transducer.slice_to. rewrite !length_fmap.
    destruct (decide (0 <= n)); by rewrite <- !fmap_take. }
  split; [done|]. rewrite E. unfold Transducer.slice_to.
  destruct (decide (0 <= n)); rewrite length_take; lia.
Qed.

Lemma get_not_key {K V} `{EqDecision K} (k : K) (d : PyDict.dict K V) :
  k ∉ d.*1 -> PyDict.get k d = None.
Proof.
  induction d as [|[k' v] d IH]; [done|]. cbn. intros Hk.
  destruct (decide (k' = k)) as [->|]; [exfalso; apply Hk; left|].
  apply IH. intros Hin. apply Hk. by right.
Qed.

(** [id2token] knows exactly the ids from 0 to the last id of the
    vocabulary. *)
Lemma id2token_known (token : Z) :
  is_Some (PyDict.get token (id2token CharTokenizer_init))
  <-> 0 <= token < Z.of_nat (vocab_size CharTokenizer_init).
Proof.
  assert ((id2token CharTokenizer_init).*1
          = seqZ 0 (Z.of_nat (vocab_size CharTokenizer_init))) as Hkeys
    by (vm_compute; reflexivity).
  split.
  - intros Hs. destruct (decide (token ∈ (id2token CharTokenizer_init).*1)) as [Hin|Hn].
    + rewrite Hkeys in Hin. apply elem_of_seqZ in Hin. lia.
    + rewrite (get_not_key _ _ Hn) in Hs. by destruct Hs.
  - intros Hr.
    assert (forallb
              (fun n => match PyDict.get (Z.of_nat n) (id2token CharTokenizer_init) with
                        | Some _ => true
                        | None => false
                        end)
              (seq 0 (vocab_size CharTokenizer_init)) = true) as Hall
      by (vm_compute; reflexivity).
    rewrite forallb_forall in Hall.
    specialize (Hall (Z.to_nat token)). rewrite Z2Nat.id in Hall by lia.
    destruct (PyDict.get token _); [done|].
    discriminate Hall. apply in_seq. lia.
Qed.

Lemma join_skips_unknown (t : CharTokenizer) (tokens : list Z) :
  PyStr.join ((fun token => default EmptyString (PyDict.get token (id2token t)))
                <$> tokens)
  = PyStr.join ((fun token => default EmptyString (PyDict.get token (id2token t)))
                  <$> filter (fun token => is_Some (PyDict.get token (id2token t)))
                             tokens).
Proof.
  induction tokens as [|tok tokens IH]; [done|].
  rewrite filter_cons. destruct (decide (is_Some _)) as [Hs|Hn].
  - unfold PyStr.join in *. cbn [fmap list_fmap foldr]. by rewrite IH.
  - unfold PyStr.join in *. cbn [fmap list_fmap foldr]. rewrite IH.
    destruct (PyDict.get tok (id2token t)); [by destruct Hn|]. done.
Qed.

(** X3: [decode] passes over the ids that [id2token] does not know, those
    below 0 or beyond the vocabulary, without an error: the text is that of
    the ids that remain. *)
Theorem decode_skips_unknown_ids (tokens : list Z) :
  decode CharTokenizer_init tokens
  = decode CharTokenizer_init
      (filter (fun token => 0 <= token < Z.of_nat (vocab_size CharTokenizer_init))
              tokens).
Proof.
  unfold decode. rewrite join_skips_unknown. do 4 f_equal.
  apply list_filter_iff. intros token. apply id2token_known.
Qed.

(** What [decode] makes of the id of one character. *)
Lemma char_read_back (c : ascii) :
  default EmptyString (PyDict.get (char_id c) (id2token CharTokenizer_init))
  = String (if in_vocabulary c then c else "a"%char) EmptyString.
Proof.
  assert (forallb
            (fun n =>
               String.eqb
                 (default EmptyString
                    (PyDict.get (char_id (ascii_of_nat n)) (id2token CharTokenizer_init)))
                 (String (if in_vocabulary (ascii_of_nat n)
                          then ascii_of_nat n else "a"%char) EmptyString))
            (seq 0 256) = true) as Hall by (vm_compute; reflexivity).
  pose proof (forall_ascii
                (fun c =>
                   String.eqb
                     (default EmptyString
                        (PyDict.get (char_id c) (id2token CharTokenizer_init)))
                     (String (if in_vocabulary c then c else "a"%char) EmptyString))
                Hall c) as H.
  by apply String.eqb_eq in H.
Qed.

Lemma join_encode (text : string) :
  PyStr.join ((fun token => default EmptyString
                              (PyDict.get token (id2token CharTokenizer_init)))
                <$> encode CharTokenizer_init text None)
  = read_back text.
Proof.
  unfold encode, PyStr.slice_to.
  induction text as [|c text IH]; [done|].
  unfold PyStr.join, PyStr.chars in *.
  cbn [PyStr.lower list_ascii_of_string fmap list_fmap foldr read_back].
  rewrite IH. fold (char_id (PyStr.lower_char c)). by rewrite char_read_back.
Qed.

Lemma read_back_in_vocabulary (text : string) :
  forallb in_vocabulary (list_ascii_of_string (PyStr.lower text)) = true ->
  read_back text = PyStr.lower text.
Proof.
  induction text as [|c text IH]; [done|]. cbn.
  intros [H1 H2]%andb_true_iff. by rewrite H1, IH.
Qed.

(** X4: decoding an encoded text gives the text back in lower case with
    the letter a in the place of every character outside the vocabulary,
    provided that text holds neither [<pad>] nor [<eos>] as a substring
    (which [decode] would cut out); a text of vocabulary characters alone
    comes back as its lower case. *)
Theorem decode_encode (text : string) :
  PyStr.contains "<pad>" (read_back text) = false ->
  PyStr.contains "<eos>" (read_back text) = false ->
  decode CharTokenizer_init (encode CharTokenizer_init text None) = read_back text
  /\ (forallb in_vocabulary (list_ascii_of_string (PyStr.lower text)) = true ->
      decode CharTokenizer_init (encode CharTokenizer_init text None)
      = PyStr.lower text).
Proof.
  intros Hpad Heos.
  assert (decode CharTokenizer_init (encode CharTokenizer_init text None)
          = read_back text) as E.
  { unfold decode. rewrite join_encode.
    rewrite (replace_absent "<pad>" "" _ Hpad). by apply replace_absent. }
  split; [done|]. intros Hv. by rewrite E, read_back_in_vocabulary.
Qed.

Lemma decode_encode_witness :
  PyStr.contains "<pad>" (read_back "Hello, World 0!") = false
  /\ PyStr.contains "<eos>" (read_back "Hello, World 0!") = false
  /\ (decode CharTokenizer_init (encode CharTokenizer_init "Hello, World 0!" None)
      = read_back "Hello, World 0!"
      /\ (forallb in_vocabulary
            (list_ascii_of_string (PyStr.lower "Hello, World 0!")) = true ->
          decode CharTokenizer_init (encode CharTokenizer_init "Hello, World 0!" None)
          = PyStr.lower "Hello, World 0!")).
Proof.
  split; [reflexivity|]. split; [reflexivity|].
  apply (decode_encode "Hello, World 0!"); reflexivity.
Defined.

(** The text of a run of [PAD] and [EOS] tokens, and that text once
    [<pad>] is cut out. *)
Lemma pads_text (pads : list Z) :
  Forall (fun p => p = PAD \/ p = EOS) pads ->
  let P := PyStr.join ((fun token => default EmptyString
                                       (PyDict.get token (id2token CharTokenizer_init)))
                         <$> pads) in
  (P = EmptyString \/ exists P', P = String "<" P')
  /\ exists n : nat,
       PyStr.replace_from "<pad>" "" 0 P = PyStr.join (replicate n "<eos>"%string).
Proof.
  induction 1 as [|p pads Hp _ IH]; cbn zeta in *.
  - split; [by left|]. by exists 0%nat.
  - destruct IH as [_ [n IH]]. unfold PyStr.join in *.
    cbn [fmap list_fmap foldr].
    set (P := foldr String.append EmptyString _) in *.
    destruct Hp as [->| ->].
    + change (default EmptyString (PyDict.get PAD (id2token CharTokenizer_init)))
        with "<pad>"%string.
      split; [right; by eexists|]. exists n.
      by rewrite replace_from_match, append_empty_l.
    + change (default EmptyString (PyDict.get EOS (id2token CharTokenizer_init)))
        with "<eos>"%string.
      split; [right; by eexists|]. exists (S n).
      rewrite !append_cons, append_empty_l.
      rewrite !replace_from_keep by reflexivity.
      cbn [replicate foldr]. rewrite !append_cons, append_empty_l.
      by rewrite IH.
Qed.

Lemma replace_eos_run (n : nat) :
  PyStr.replace_from "<eos>" "" 0 (PyStr.join (replicate n "<eos>"%string))
  = EmptyString.
Proof.
  induction n as [|n IH]; [done|]. unfold PyStr.join in *. cbn [replicate foldr].
  by rewrite replace_from_match, append_empty_l.
Qed.

Lemma eos_run_starts (n : nat) :
  PyStr.join (replicate n "<eos>"%string) = EmptyString
  \/ exists E', PyStr.join (replicate n "<eos>"%string) = String "<" E'.
Proof. destruct n; [by left|right]. by eexists. Qed.

Lemma less_than_absent_pad : PyStr.char_absent "<" "pad>".
Proof.
  unfold PyStr.char_absent. cbn. intros Hin.
  repeat (apply elem_of_cons in Hin as [Hin|Hin]; [discriminate|]).
  by apply elem_of_nil in Hin.
Qed.

Lemma less_than_absent_eos : PyStr.char_absent "<" "eos>".
Proof.
  unfold PyStr.char_absent. cbn. intros Hin.
  repeat (apply elem_of_cons in Hin as [Hin|Hin]; [discriminate|]).
  by apply elem_of_nil in Hin.
Qed.

(** X5: [PAD] and [EOS] tokens at the end of a token sequence leave no
    trace in the decoded text. *)
Theorem decode_ignores_trailing_pad_eos (tokens pads : list Z) :
  Forall (fun p => p = PAD \/ p = EOS) pads ->
  decode CharTokenizer_init (tokens ++ pads) = decode CharTokenizer_init tokens.
Proof.
  intros Hpads. unfold decode. rewrite fmap_app, join_app.
  destruct (pads_text pads Hpads) as [Hstart [n Hn]]. cbn zeta in Hstart, Hn.
  set (J := PyStr.join (_ <$> tokens)) in *.
  set (P := PyStr.join (_ <$> pads)) in *.
  change (PyStr.replace "<pad>" "" (String.append J P))
    with (PyStr.replace_from "<pad>" "" 0 (String.append J P)).
  change (PyStr.replace "<pad>" "" J) with (PyStr.replace_from "<pad>" "" 0 J).
  rewrite (replace_from_app "<" "pad>" "" J P 0 less_than_absent_pad Hstart)
    by lia.
  rewrite Hn.
  set (X := PyStr.replace_from "<pad>" "" 0 J).
  change (PyStr.replace "<eos>" "" ?s) with (PyStr.replace_from "<eos>" "" 0 s).
  change (PyStr.replace "<eos>" "" (String.append X (PyStr.join (replicate n "<eos>"%string))))
    with (PyStr.replace_from "<eos>" "" 0
            (String.append X (PyStr.join (replicate n "<eos>"%string)))).
  change (PyStr.replace "<eos>" "" X) with (PyStr.replace_from "<eos>" "" 0 X).
  rewrite (replace_from_app "<" "eos>" "" X _ 0 less_than_absent_eos (eos_run_starts n))
    by lia.
  by rewrite replace_eos_run, append_empty_r.
Qed.

Lemma decode_ignores_trailing_pad_eos_witness :
  Forall (fun p => p = PAD \/ p = EOS) [EOS; PAD; PAD]
  /\ decode CharTokenizer_init ([11; 8] ++ [EOS; PAD; PAD])
     = decode CharTokenizer_init [11; 8].
Proof.
  assert (Forall (fun p => p = PAD \/ p = EOS) [EOS; PAD; PAD]) as H.
  { repeat constructor; by (left + right). }
  split; [exact H|]. exact (decode_ignores_trailing_pad_eos [11; 8] [EOS; PAD; PAD] H).
Defined.

End CharTokenizerFacts.

(** ** zero_pad_concat and end_pad_concat *)

Section CollateFacts.
Import Collate.

Lemma foldl_max_bounds {A} (ys : list (list A)) (n : nat) :
  let M := foldl (fun acc y => Nat.max acc (length y)) n ys in
  (n <= M)%nat /\ Forall (fun y => (length y <= M)%nat) ys
  /\ (M = n \/ Exists (fun y => length y = M) ys).
Proof.
  revert n. induction ys as [|y ys IH]; intros n; cbn.
  - repeat split; [lia|constructor|by left].
  - destruct (IH (Nat.max n (length y))) as (H1 & H2 & H3). cbn zeta in *.
    set (M := foldl _ _ ys) in *.
    split; [lia|]. split; [constructor; [lia|done]|].
    destruct H3 as [H3|H3]; [|right; by right].
    destruct (Nat.max_spec n (length y)) as [[_ E]|[_ E]]; rewrite E in H3.
    + right. left. done.
    + by left.
Qed.

(** What [max_len] returns is the length of a longest element. *)
Lemma max_len_spec {A} (xs : list (list A)) :
  match max_len xs with
  | Ok M => Forall (fun x => (length x <= M)%nat) xs
            /\ Exists (fun x => length x = M) xs
  | Raise e => e = ValueError /\ xs = []
  end.
Proof.
  destruct xs as [|x xs]; [done|]. unfold max_len.
  destruct (foldl_max_bounds xs (length x)) as (H1 & H2 & H3). cbn zeta in *.
  set (M := foldl _ _ xs) in *. split.
  - constructor; [lia|done].
  - destruct H3 as [H3|H3]; [left; done|by right].
Qed.

(** The loop of the two padding functions, on the rows from index [k] on:
    every row receives its element followed by the filling. *)
Lemma pad_loop {A} (fill : A) (M : nat) (rest : list (list A))
    (pre : list (list A)) :
  Forall (fun x => (length x <= M)%nat) rest ->
  foldl (fun mat '(e, x) => assign_prefix e x mat)
        (pre ++ replicate (length rest) (replicate M fill))
        (enumerate_from (Z.of_nat (length pre)) rest)
  = pre ++ ((fun x => x ++ replicate (M - length x) fill) <$> rest).
Proof.
  intros Hall. revert pre.
  induction Hall as [|x rest Hx _ IH]; intros pre; [done|].
  cbn [enumerate_from foldl length replicate fmap list_fmap].
  unfold assign_prefix at 2. rewrite Nat2Z.id.
  rewrite <- (Nat.add_0_r (length pre)) at 1. rewrite alter_app_r.
  cbn [alter list_alter]. rewrite drop_replicate.
  specialize (IH (pre ++ [x ++ replicate (M - length x) fill])).
  rewrite length_app, Nat2Z.inj_add in IH. cbn [length] in IH.
  rewrite <- !app_assoc in IH. cbn [app] in IH. exact IH.
Qed.

(** X6: [zero_pad_concat] raises [ValueError] on an empty list and
    otherwise returns one row per feature, every row of the length of a
    longest feature: the feature itself followed by zero frames. *)
Theorem zero_pad_concat_rows {A} (zero : A) (feats : list (list A)) :
  match zero_pad_concat zero feats with
  | Ok input_mat =>
      exists max_t,
        Forall (fun feat => (length feat <= max_t)%nat) feats
        /\ Exists (fun feat => length feat = max_t) feats
        /\ input_mat
           = (fun feat => feat ++ replicate (max_t - length feat) zero) <$> feats
  | Raise e => e = ValueError /\ feats = []
  end.
Proof.
  unfold zero_pad_concat. pose proof (max_len_spec feats) as HM.
  destruct (max_len feats) as [M|e]; [|done].
  destruct HM as [H1 H2]. exists M. split; [done|]. split; [done|].
  apply (pad_loop zero M feats [] H1).
Qed.

(** X7: [end_pad_concat] raises [ValueError] on an empty list and
    otherwise returns one row per text, every row of the length of a longest
    text: the text itself followed by [PAD] tokens. *)
Theorem end_pad_concat_rows (texts : list (list Z)) :
  match end_pad_concat texts with
  | Ok labels =>
      exists max_t,
        Forall (fun text => (length text <= max_t)%nat) texts
        /\ Exists (fun text => length text = max_t) texts
        /\ labels
           = (fun text => text ++ replicate (max_t - length text) Tokenizer.PAD)
               <$> texts
  | Raise e => e = ValueError /\ texts = []
  end.
Proof.
  unfold end_pad_concat. pose proof (max_len_spec texts) as HM.
  destruct (max_len texts) as [M|e]; [|done].
  destruct HM as [H1 H2]. exists M. split; [done|]. split; [done|].
  apply (pad_loop Tokenizer.PAD M texts [] H1).
Qed.

(** X8: padding a batch of token sequences with [end_pad_concat] does not
    change what [decode] reads from any of them, the rows of the padded
    batch being read as lists of ids. *)
Theorem decode_end_pad_concat (texts : list (list Z)) :
  match end_pad_concat texts with
  | Ok labels =>
      Forall2 (fun row text =>
                 CharTokenizerMethods.decode Tokenizer.CharTokenizer_init row
                 = CharTokenizerMethods.decode Tokenizer.CharTokenizer_init text)
              labels texts
  | Raise _ => texts = []
  end.
Proof.
  pose proof (end_pad_concat_rows texts) as HR.
  destruct (end_pad_concat texts) as [labels|e]; [|by destruct HR].
  destruct HR as (M & _ & _ & ->).
  apply Forall2_fmap_l, Forall_Forall2_diag, Forall_forall. intros text _.
  apply decode_ignores_trailing_pad_eos.
  apply Forall_forall. intros p Hp%elem_of_replicate. left. by destruct Hp.
Qed.

End CollateFacts.

(** ** More on torch.max *)

Section MaxFacts.
Import Torch.
Local Open Scope R_scope.

Lemma max_from_spec (i : Z) (best : R) (besti : Z) (xs : list R) :
  let r := max_from i best besti xs in
  best <= r.1
  /\ Forall (fun x => x <= r.1) xs
  /\ ((r = (best, besti))
      \/ (i <= r.2 < i + Z.of_nat (length xs))%Z
         /\ xs !! Z.to_nat (r.2 - i) = Some r.1).
Proof.
  revert i best besti. induction xs as [|x xs IH]; intros i best besti; cbn zeta.
  - cbn. repeat split; [lra|constructor|by left].
  - cbn [max_from]. destruct (Rlt_dec best x) as [Hlt|Hge].
    + destruct (IH (i + 1)%Z x i) as (H1 & H2 & H3). cbn zeta in *.
      set (r := max_from (i + 1) x i xs) in *.
      split; [lra|]. split; [constructor; [lra|done]|]. right.
      destruct H3 as [E|[Hr Hl]].
      * rewrite E. cbn. split; [cbn [length]; lia|].
        by replace (i - i)%Z with 0%Z by lia.
      * split; [cbn [length]; lia|].
        replace (Z.to_nat (r.2 - i)) with (S (Z.to_nat (r.2 - (i + 1)))) by lia.
        done.
    + destruct (IH (i + 1)%Z best besti) as (H1 & H2 & H3). cbn zeta in *.
      set (r := max_from (i + 1) best besti xs) in *.
      split; [done|]. split; [constructor; [lra|done]|].
      destruct H3 as [E|[Hr Hl]]; [by left|right].
      split; [cbn [length]; lia|].
      replace (Z.to_nat (r.2 - i)) with (S (Z.to_nat (r.2 - (i + 1)))) by lia.
      done.
Qed.

(** On a row that is not empty, [torch.max] returns a greatest entry and
    an index of the row at which it stands. *)
Lemma max_spec (xs : list R) :
  xs <> [] ->
  Forall (fun x => x <= (max xs).1) xs
  /\ (0 <= (max xs).2 < Z.of_nat (length xs))%Z
  /\ xs !! Z.to_nat (max xs).2 = Some (max xs).1.
Proof.
  destruct xs as [|x xs]; [done|]. intros _. cbn [max].
  destruct (max_from_spec 1 x 0 xs) as (H1 & H2 & H3). cbn zeta in *.
  set (r := max_from 1 x 0 xs) in *.
  split; [constructor; done|].
  destruct H3 as [E|[Hr Hl]].
  - rewrite E. cbn. split; [lia|done].
  - split; [cbn [length]; lia|].
    replace (Z.to_nat r.2) with (S (Z.to_nat (r.2 - 1))) by lia. done.
Qed.

End MaxFacts.

(** ** More on greedy_decode *)

Section GreedyMore.
Import Torch Transducer.

Lemma greedy_step_choice m enc_i st :
  (greedy_step m enc_i st).1.1 = (step_max m enc_i st).*2
  /\ (greedy_step m enc_i st).1.2 = (step_max m enc_i st).*1.
Proof. unfold greedy_step. by destruct (step_candidate m _ st) as [nhp [nh nc]]. Qed.

Lemma greedy_loop_cons m h_enc i idxs st :
  let s := greedy_step m (column i h_enc) st in
  (greedy_loop m h_enc (i :: idxs) st).1.1
  = s.1.1 :: (greedy_loop m h_enc idxs s.2).1.1
  /\ (greedy_loop m h_enc (i :: idxs) st).1.2
     = s.1.2 :: (greedy_loop m h_enc idxs s.2).1.2.
Proof.
  cbn zeta. cbn [greedy_loop].
  destruct (greedy_step m (column i h_enc) st) as [[pred prob] st'].
  cbn [fst snd]. by destruct (greedy_loop m h_enc idxs st') as [[ys ps] fin].
Qed.

(** What holds of the choice at every step holds of every entry of the two
    records. *)
Lemma records_entries m xs (P : R -> Prop) (Q : Z -> Prop) :
  (forall v, P (max (log_softmax (joint m v))).1
             /\ Q (max (log_softmax (joint m v))).2) ->
  Forall (Forall Q) (token_record m xs)
  /\ Forall (Forall P) (log_prob_record m xs).
Proof.
  intros HPQ. unfold token_record, log_prob_record.
  assert (Forall (Forall Q) (run_loop m xs).1
          /\ Forall (Forall P) (run_loop m xs).2) as [H1 H2];
    [|split; by apply Forall_stack_rows].
  unfold run_loop. generalize (init_state m (length xs)).
  generalize (seq 0 (shape1 (encode m xs))). intros idxs.
  induction idxs as [|i idxs IH]; intros st; [split; constructor|].
  destruct (greedy_loop_cons m (encode m xs) i idxs st) as [-> ->].
  destruct (greedy_step_choice m (column i (encode m xs)) st) as [-> ->].
  destruct (IH (greedy_step m (column i (encode m xs)) st).2) as [IH1 IH2].
  split; (constructor; [|done]); unfold step_max;
    rewrite !Forall_fmap; apply Forall_forall; intros v _; cbn; apply HPQ.
Qed.

Lemma joint_not_empty m v : joint m v <> [].
Proof.
  intros E. pose proof (joint_width m v) as Hw. rewrite E in Hw.
  pose proof (embed_padding m) as Hp. unfold Tokenizer.PAD in Hp. cbn in Hw. lia.
Qed.

Lemma length_slice_to {A} (L : Z) (l : list A) :
  Z.of_nat (length (slice_to L l))
  = Z.max 0 (Z.min (Z.of_nat (length l))
                   (if decide (0 <= L) then L else Z.of_nat (length l) + L)).
Proof.
  unfold slice_to. destruct (decide (0 <= L)); rewrite length_take; lia.
Qed.

(** X9: every token that [greedy_decode] returns is an id of the
    vocabulary other than blank, and the sequence of an element of valid
    length [L] has at most [L] tokens (none for [L = 0]), at most as many as
    there are time steps, and for a negative [L] at most as many as the time
    steps but the last [-L]. *)
Theorem greedy_decode_tokens_in_vocabulary m xs xlen :
  match greedy_decode m xs xlen with
  | Ok (ys, _) =>
      Forall2 (fun seq L =>
                 Forall (fun tok => 0 <= tok < Z.of_nat (vocab_size m)
                                    /\ tok <> blank m) seq
                 /\ Z.of_nat (length seq)
                    <= Z.max 0 (Z.min (Z.of_nat (shape1 xs))
                                      (if decide (0 <= L) then L
                                       else Z.of_nat (shape1 xs) + L)))
              ys (take (length ys) xlen)
  | Raise _ => True
  end.
Proof.
  pose proof (greedy_decode_cases m xs xlen) as HC.
  destruct (greedy_decode m xs xlen) as [[ys sc]|e]; [|done].
  destruct HC as (_ & _ & [= -> ->]).
  destruct (records_entries m xs (fun _ => True)
              (fun tok => 0 <= tok < Z.of_nat (vocab_size m))) as [HQ _].
  { intros v. split; [done|].
    destruct (max_spec (log_softmax (joint m v))) as (_ & Hi & _).
    - unfold log_softmax. pose proof (joint_not_empty m v). by destruct (joint m v).
    - unfold log_softmax in Hi. by rewrite length_fmap, joint_width in Hi. }
  apply Forall2_same_length_lookup_2.
  - rewrite length_take, length_truncate_and_filter. lia.
  - intros b seq L. rewrite lookup_truncate_and_filter.
    intros Hseq [HL _]%lookup_take_Some.
    destruct (token_record m xs !! b) as [row|] eqn:Hrow; [|done].
    rewrite HL in Hseq. cbn in Hseq. injection Hseq as <-.
    pose proof (Forall_lookup_1 _ _ _ _ HQ Hrow) as Hq.
    pose proof (Forall_lookup_1 _ _ _ _ (rows_token_record m xs) Hrow) as Hlen.
    cbn in Hlen. split.
    + apply Forall_forall. intros tok [Hne Hin]%list_elem_of_filter. split; [|done].
      assert (tok ∈ row) as Hin'.
      { unfold slice_to in Hin.
        destruct (decide _); apply elem_of_take in Hin as (j & Hj & _);
          by eapply list_elem_of_lookup_2. }
      by apply (proj1 (Forall_forall _ _) Hq).
    + etrans; [apply Nat2Z.inj_le, length_filter|].
      by rewrite length_slice_to, Hlen.
Qed.


(** The records of a batch of one element. *)
Lemma records_alone m (x : list Vec) :
  token_record m [x] = [(elem_run m (length x) x).1]
  /\ log_prob_record m [x] = [(elem_run m (length x) x).2].
Proof.
  destruct (record_at m [x] 0 x eq_refl) as [H1 H2]. cbn [shape1] in H1, H2.
  pose proof (length_token_record m [x]) as L1.
  pose proof (length_log_prob_record m [x]) as L2.
  destruct (token_record m [x]) as [|r1 [|]]; try done.
  destruct (log_prob_record m [x]) as [|r2 [|]]; try done.
  cbn in H1, H2. by simplify_eq.
Qed.

Lemma greedy_decode_alone m (x : list Vec) (L : Z) :
  Tokenizer.BOS < Z.of_nat (vocab_size m) -> x <> [] ->
  greedy_decode m [x] [L]
  = Ok ([filter (fun tok => tok ≠ blank m) (slice_to L (elem_run m (length x) x).1)],
        [(- rsum (elem_run m (length x) x).2)%R]).
Proof.
  intros HV Hx. rewrite greedy_decode_ok; [|by destruct x|done].
  destruct (records_alone m x) as [-> ->]. done.
Qed.

(** X11: the elements of a batch are decoded independently: an element
    receives in the batch the token sequence and the score it receives when
    it is decoded alone with the same valid length. *)
Theorem greedy_decode_element_alone m xs xlen b (x : list Vec) (L : Z) :
  Tokenizer.BOS < Z.of_nat (vocab_size m) ->
  xs !! b = Some x -> xlen !! b = Some L ->
  length x = shape1 xs -> x <> [] ->
  exists y s,
    greedy_decode m [x] [L] = Ok ([y], [s])
    /\ exists ys neg_log_prob,
         greedy_decode m xs xlen = Ok (ys, neg_log_prob)
         /\ ys !! b = Some y /\ neg_log_prob !! b = Some s.
Proof.
  intros HV Hx HL Hlen Hne. eexists _, _.
  split; [by apply greedy_decode_alone|].
  eexists _, _. split.
  - apply greedy_decode_ok; [|done]. rewrite <- Hlen. by destruct x.
  - destruct (record_at m xs b x Hx) as [H1 H2]. split.
    + rewrite lookup_truncate_and_filter, H1, HL. cbn. by rewrite Hlen.
    + rewrite (greedy_decode_scores_at m xs b x Hx). by rewrite Hlen.
Qed.

Lemma greedy_decode_element_alone_witness :
  Tokenizer.BOS < Z.of_nat (vocab_size Examples.small)
  /\ Examples.batch3 !! 1%nat = Some Examples.utterance
  /\ Examples.lengths3 !! 1%nat = Some 3
  /\ length Examples.utterance = shape1 Examples.batch3
  /\ Examples.utterance <> []
  /\ exists y s,
       greedy_decode Examples.small [Examples.utterance] [3] = Ok ([y], [s])
       /\ exists ys neg_log_prob,
            greedy_decode Examples.small Examples.batch3 Examples.lengths3
            = Ok (ys, neg_log_prob)
            /\ ys !! 1%nat = Some y /\ neg_log_prob !! 1%nat = Some s.
Proof.
  split; [reflexivity|]. split; [reflexivity|]. split; [reflexivity|].
  split; [reflexivity|]. split; [discriminate|].
  apply (greedy_decode_element_alone Examples.small Examples.batch3
           Examples.lengths3 1 Examples.utterance 3);
    try reflexivity; discriminate.
Defined.




(** X13: a feature that is padded into a batch by [zero_pad_concat] and
    decoded with its own length as valid length receives the token sequence
    it receives when it is decoded alone. *)
Theorem greedy_decode_zero_pad_concat m (width : nat) (feats : list (list Vec))
    b (feat : list Vec) :
  Tokenizer.BOS < Z.of_nat (vocab_size m) ->
  feats !! b = Some feat -> feat <> [] ->
  exists xs ys neg_log_prob y s,
    Collate.zero_pad_concat (zeros width) feats = Ok xs
    /\ greedy_decode m xs ((fun f => Z.of_nat (length f)) <$> feats)
       = Ok (ys, neg_log_prob)
    /\ greedy_decode m [feat] [Z.of_nat (length feat)] = Ok ([y], [s])
    /\ ys !! b = Some y.
Proof.
  intros HV Hb Hne.
  pose proof (zero_pad_concat_rows (zeros width) feats) as HR.
  destruct (Collate.zero_pad_concat (zeros width) feats) as [xs|e];
    [|destruct HR as [_ ->]; done].
  destruct HR as (M & Hle & _ & ->).
  set (pad := fun f : list Vec => f ++ replicate (M - length f) (zeros width)).
  pose proof (Forall_lookup_1 _ _ _ _ Hle Hb) as HM. cbn in HM.
  assert (length feat <> 0%nat) as Hlen by (by destruct feat).
  assert (shape1 (pad <$> feats) = M) as HT.
  { destruct feats as [|f feats]; [done|]. cbn. unfold pad.
    apply Forall_cons in Hle as [Hf _]. rewrite length_app, length_replicate. lia. }
  eexists _, _, _, _, _. split; [reflexivity|].
  split; [apply greedy_decode_ok; [lia|done]|].
  split; [by apply greedy_decode_alone|].
  destruct (record_at m (pad <$> feats) b (pad feat)) as [H1 _].
  { by rewrite list_lookup_fmap, Hb. }
  rewrite lookup_truncate_and_filter, H1, list_lookup_fmap, Hb. cbn.
  rewrite !slice_to_take by lia. rewrite Nat2Z.id, HT. do 2 f_equal.
  apply elem_run_prefix; [lia|lia|]. unfold pad. by rewrite take_app_length, take_ge.
Qed.

Lemma greedy_decode_zero_pad_concat_witness :
  Tokenizer.BOS < Z.of_nat (vocab_size Examples.small)
  /\ [Examples.utterance; take 3 Examples.utterance] !! 1%nat
     = Some (take 3 Examples.utterance)
  /\ take 3 Examples.utterance <> []
  /\ exists xs ys neg_log_prob y s,
       Collate.zero_pad_concat (zeros 2)
         [Examples.utterance; take 3 Examples.utterance] = Ok xs
       /\ greedy_decode Examples.small xs
            ((fun f => Z.of_nat (length f))
               <$> [Examples.utterance; take 3 Examples.utterance])
          = Ok (ys, neg_log_prob)
       /\ greedy_decode Examples.small [take 3 Examples.utterance]
            [Z.of_nat (length (take 3 Examples.utterance))] = Ok ([y], [s])
       /\ ys !! 1%nat = Some y.
Proof.
  split; [reflexivity|]. split; [reflexivity|]. split; [discriminate|].
  apply (greedy_decode_zero_pad_concat Examples.small 2
           [Examples.utterance; take 3 Examples.utterance] 1
           (take 3 Examples.utterance)); [reflexivity|reflexivity|discriminate].
Defined.

End GreedyMore.

(** ** More on LayerNormRNN *)

Section LayerNormRNNMore.
Import LayerNormRNN.




End LayerNormRNNMore.

(** ** Transducer.forward *)

Section ForwardFacts.
Import Torch Transducer TransducerForward Examples MoreExamples.

Lemma run_layer_app cell xs1 xs2 hc :
  run_layer cell (xs1 ++ xs2) hc
  = ((run_layer cell xs1 hc).1 ++ (run_layer cell xs2 (run_layer cell xs1 hc).2).1,
     (run_layer cell xs2 (run_layer cell xs1 hc).2).2).
Proof.
  revert hc. induction xs1 as [|x xs1 IH]; intros hc.
  - cbn. by destruct (run_layer cell xs2 hc).
  - cbn [app run_layer]. rewrite IH.
    destruct (run_layer cell xs1 (cell x hc)) as [o1 f1]. cbn [fst snd].
    by destruct (run_layer cell xs2 f1).
Qed.

(** A stack of layers that reads a sequence in two parts, the second from
    the state the first has left, computes what it computes on the whole. *)
Lemma elem_layers_app cs_ x1 x2 e :
  elem_layers cs_ (x1 ++ x2) e
  = ((elem_layers cs_ x1 e).1 ++ (elem_layers cs_ x2 (elem_layers cs_ x1 e).2).1,
     (elem_layers cs_ x2 (elem_layers cs_ x1 e).2).2).
Proof.
  revert x1 x2 e. induction cs_ as [|cell cs_ IH]; intros x1 x2 [|hc e]; try done.
  cbn [elem_layers]. rewrite run_layer_app.
  destruct (run_layer cell x1 hc) as [o1 f1]. cbn [fst snd].
  rewrite IH.
  destruct (elem_layers cs_ o1 e) as [g1 e1]. cbn [fst snd elem_layers].
  destruct (run_layer cell x2 f1) as [o2 f2]. cbn [fst snd].
  by destruct (elem_layers cs_ o2 e1).
Qed.

Lemma length_elem_layers_out cs_ x e : length (elem_layers cs_ x e).1 = length x.
Proof.
  revert x e. induction cs_ as [|cell cs_ IH]; intros x [|hc e]; try done.
  cbn [elem_layers]. pose proof (length_run_layer cell x hc) as HL.
  destruct (run_layer cell x hc) as [out fin]. cbn [fst] in HL.
  specialize (IH out e). destruct (elem_layers cs_ out e). cbn [fst] in *. lia.
Qed.

Lemma length_elem_encode m x : length (elem_encode m x) = length x.
Proof. unfold elem_encode. by rewrite length_fmap, length_elem_layers_out. Qed.

Lemma length_elem_predict m toks : length (elem_predict m toks).1 = length toks.
Proof. unfold elem_predict. by rewrite length_elem_layers_out, length_fmap. Qed.

(** The predictor is causal: its output at the position [u] depends on the
    labels up to [u] only. *)
Lemma elem_predict_take m toks (u : nat) :
  (u < length toks)%nat ->
  (elem_predict m toks).1 !!! u = (elem_predict m (take (S u) toks)).1 !!! u.
Proof.
  intros Hu. unfold elem_predict.
  rewrite fmap_take, <- elem_layers_take.
  by rewrite lookup_total_take_lt by lia.
Qed.

Lemma elem_encode_at m x (t : nat) :
  elem_encode m x !!! t = elem_encode m (take (S t) x) !!! t.
Proof. by rewrite <- elem_encode_take, lookup_total_take_lt by lia. Qed.

Lemma elem_predict_snoc m toks p :
  elem_predict m (toks ++ [p])
  = ((elem_predict m toks).1
       ++ (elem_layers (cells (decoder m)) [embed m p] (elem_predict m toks).2).1,
     (elem_layers (cells (decoder m)) [embed m p] (elem_predict m toks).2).2).
Proof. unfold elem_predict. by rewrite fmap_app, elem_layers_app. Qed.

Lemma with_bos_at ys b y :
  ys !! b = Some y -> with_bos ys !! b = Some (Tokenizer.BOS :: y).
Proof.
  intros Hy. unfold with_bos.
  rewrite lookup_zip_with, lookup_replicate_2, Hy by (by eapply lookup_lt_Some).
  done.
Qed.

Lemma length_with_bos ys : length (with_bos ys) = length ys.
Proof. unfold with_bos. rewrite length_zip_with, length_replicate. lia. Qed.

Lemma with_bos_in_range (n : Z) ys :
  0 <= Tokenizer.BOS < n ->
  Forall (Forall (fun tok => 0 <= tok < n)) ys ->
  Forall (Forall (fun tok => 0 <= tok < n)) (with_bos ys).
Proof.
  intros HB Hys. apply Forall_lookup. intros b row Hrow.
  destruct (lookup_lt_is_Some_2 ys b) as [y Hy].
  { rewrite <- length_with_bos. by eapply lookup_lt_Some. }
  rewrite (with_bos_at ys b y Hy) in Hrow. injection Hrow as <-.
  constructor; [done|]. by eapply Forall_lookup_1.
Qed.

(** Batches of one size: the scores of every element are those of its
    encoder and predictor outputs. *)
Lemma forward_ok m xs ys :
  length xs = length ys -> shape1 xs <> 0%nat ->
  Tokenizer.BOS < Z.of_nat (vocab_size m) ->
  Forall (Forall (fun tok => 0 <= tok < Z.of_nat (vocab_size m))) ys ->
  forward m xs ys
  = Ok (zip_with (joint_sum m) (encode m xs)
          (lstm_forward (decoder m)
             ((fun row : list Z => embed m <$> row) <$> with_bos ys) None).1).
Proof.
  intros Hlen HT HB Hys. unfold forward.
  destruct (decide (shape1 xs = 0%nat)) as [|_]; [done|].
  destruct (decide (ys = [])) as [->|_].
  { destruct xs; [done|]. done. }
  destruct (decide _) as [_|N].
  2:{ destruct N. apply with_bos_in_range; [|done]. split; [done|done]. }
  unfold broadcast.
  destruct (decide _) as [_|N].
  2:{ destruct N. rewrite length_encode.
      rewrite (proj1 (lstm_forward_None_shape (decoder m) _)).
      by rewrite length_fmap, length_with_bos. }
  f_equal. generalize (encode m xs). intros l.
  generalize ((lstm_forward (decoder m)
                 ((fun row : list Z => embed m <$> row) <$> with_bos ys) None).1).
  intros k. revert k. induction l as [|a l IH]; intros [|c k]; try done.
  cbn. f_equal. apply IH.
Qed.

Lemma forward_at m xs ys b x y :
  length xs = length ys -> shape1 xs <> 0%nat ->
  Tokenizer.BOS < Z.of_nat (vocab_size m) ->
  Forall (Forall (fun tok => 0 <= tok < Z.of_nat (vocab_size m))) ys ->
  xs !! b = Some x -> ys !! b = Some y ->
  exists prob,
    forward m xs ys = Ok prob
    /\ length prob = length xs
    /\ prob !! b
       = Some (joint_sum m (elem_encode m x) (elem_predict m (Tokenizer.BOS :: y)).1).
Proof.
  intros Hlen HT HB Hys Hx Hy. eexists. split; [by apply forward_ok|].
  split.
  - rewrite length_zip_with, length_encode.
    rewrite (proj1 (lstm_forward_None_shape (decoder m) _)).
    rewrite length_fmap, length_with_bos. lia.
  - pose proof (lstm_forward_None_at (decoder m)
                  ((fun row : list Z => embed m <$> row) <$> with_bos ys) b
                  (embed m <$> Tokenizer.BOS :: y)) as HL.
    rewrite list_lookup_fmap, (with_bos_at ys b y Hy) in HL.
    destruct (HL eq_refl) as [HP _].
    apply lookup_zip_with_Some. eexists _, _. split; [done|]. split.
    + exact (encode_at m xs b x Hx).
    + exact HP.
Qed.

Lemma joint_sum_entry m (enc pre : list (list R)) (t u : nat) :
  (t < length enc)%nat -> (u < length pre)%nat ->
  joint_sum m enc pre !! t ≫= (fun r => r !! u)
  = Some (joint m (vadd (enc !!! t) (pre !!! u))).
Proof.
  intros Ht Hu. unfold joint_sum.
  rewrite list_lookup_fmap, (list_lookup_lookup_total_lt enc t Ht).
  cbn [fmap option_fmap option_map mbind option_bind].
  by rewrite list_lookup_fmap, (list_lookup_lookup_total_lt pre u Hu).
Qed.

Lemma forward_entry m xs ys b x y (t u : nat) :
  length xs = length ys -> shape1 xs <> 0%nat ->
  Tokenizer.BOS < Z.of_nat (vocab_size m) ->
  Forall (Forall (fun tok => 0 <= tok < Z.of_nat (vocab_size m))) ys ->
  xs !! b = Some x -> ys !! b = Some y ->
  (t < length x)%nat -> (u <= length y)%nat ->
  exists prob,
    forward m xs ys = Ok prob
    /\ entry3 prob b t u = Some (lattice_entry m x y t u).
Proof.
  intros Hlen HT HB Hys Hx Hy Ht Hu.
  destruct (forward_at m xs ys b x y Hlen HT HB Hys Hx Hy) as (prob & E & _ & Hb).
  exists prob. split; [done|]. unfold entry3. rewrite Hb. cbn [mbind option_bind].
  apply joint_sum_entry.
  - by rewrite length_elem_encode.
  - rewrite length_elem_predict. cbn [length]. lia.
Qed.



(** X17: the scores are causal in the frames and in the labels: the entry
    of an element at the frame [t] and the label position [u] depends on the
    element's frames up to [t] and on its first [u] labels only, not on later
    frames, on the label at [u] or later ones, or on the other elements of
    the batch. *)
Theorem Transducer_forward_causal m xs ys xs' ys' b b' x y x' y' (t u : nat) :
  length xs = length ys -> length xs' = length ys' ->
  shape1 xs <> 0%nat -> shape1 xs' <> 0%nat ->
  Tokenizer.BOS < Z.of_nat (vocab_size m) ->
  Forall (Forall (fun tok => 0 <= tok < Z.of_nat (vocab_size m))) ys ->
  Forall (Forall (fun tok => 0 <= tok < Z.of_nat (vocab_size m))) ys' ->
  xs !! b = Some x -> ys !! b = Some y ->
  xs' !! b' = Some x' -> ys' !! b' = Some y' ->
  (t < length x)%nat -> (u <= length y)%nat ->
  take (S t) x = take (S t) x' -> take u y = take u y' ->
  exists prob prob' v,
    forward m xs ys = Ok prob /\ forward m xs' ys' = Ok prob'
    /\ entry3 prob b t u = Some v /\ entry3 prob' b' t u = Some v.
Proof.
  intros Hlen Hlen' HT HT' HB Hys Hys' Hx Hy Hx' Hy' Ht Hu Ex Ey.
  assert (t < length x')%nat as Ht'.
  { pose proof (f_equal length Ex) as HL. rewrite !length_take in HL. lia. }
  assert (u <= length y')%nat as Hu'.
  { pose proof (f_equal length Ey) as HL. rewrite !length_take in HL. lia. }
  destruct (forward_entry m xs ys b x y t u Hlen HT HB Hys Hx Hy Ht Hu)
    as (prob & E & Hv).
  destruct (forward_entry m xs' ys' b' x' y' t u Hlen' HT' HB Hys' Hx' Hy' Ht' Hu')
    as (prob' & E' & Hv').
  exists prob, prob', (lattice_entry m x y t u).
  split; [done|]. split; [done|]. split; [done|].
  rewrite Hv'. f_equal. unfold lattice_entry.
  rewrite (elem_encode_at m x t), (elem_encode_at m x' t), Ex.
  rewrite (elem_predict_take m (Tokenizer.BOS :: y) u) by (cbn [length]; lia).
  rewrite (elem_predict_take m (Tokenizer.BOS :: y') u) by (cbn [length]; lia).
  cbn [take]. by rewrite Ey.
Qed.

Lemma Transducer_forward_causal_witness :
  length batch3 = length labels3 /\ length batch3_repadded = length labels3_padded
  /\ shape1 batch3 <> 0%nat /\ shape1 batch3_repadded <> 0%nat
  /\ Tokenizer.BOS < Z.of_nat (vocab_size small)
  /\ Forall (Forall (fun tok => 0 <= tok < Z.of_nat (vocab_size small))) labels3
  /\ Forall (Forall (fun tok => 0 <= tok < Z.of_nat (vocab_size small)))
            labels3_padded
  /\ batch3 !! 1%nat = Some utterance /\ labels3 !! 1%nat = Some [3]
  /\ batch3_repadded !! 1%nat = Some utterance_repadded
  /\ labels3_padded !! 1%nat = Some [3; 1]
  /\ (2 < length utterance)%nat /\ (1 <= length [3])%nat
  /\ take 3 utterance = take 3 utterance_repadded
  /\ take 1 [3] = take 1 [3; 1]
  /\ exists prob prob' v,
       forward small batch3 labels3 = Ok prob
       /\ forward small batch3_repadded labels3_padded = Ok prob'
       /\ entry3 prob 1 2 1 = Some v /\ entry3 prob' 1 2 1 = Some v.
Proof.
  assert (Forall (Forall (fun tok => 0 <= tok < Z.of_nat (vocab_size small))) labels3)
    as HF by (repeat constructor; cbn; lia).
  assert (Forall (Forall (fun tok => 0 <= tok < Z.of_nat (vocab_size small)))
            labels3_padded)
    as HF' by (repeat constructor; cbn; lia).
  split; [reflexivity|]. split; [reflexivity|]. split; [cbn; lia|]. split; [cbn; lia|].
  split; [reflexivity|]. split; [exact HF|]. split; [exact HF'|].
  split; [reflexivity|]. split; [reflexivity|]. split; [reflexivity|].
  split; [reflexivity|]. split; [cbn; lia|]. split; [cbn; lia|].
  split; [reflexivity|]. split; [reflexivity|].
  apply (Transducer_forward_causal small batch3 labels3 batch3_repadded labels3_padded
           1 1 utterance [3] utterance_repadded [3; 1] 2 1);
    first [reflexivity | exact HF | exact HF' | cbn; lia].
Defined.

(** *** The greedy path through the scores of [forward] *)

Lemma elem_loop_app_full m enc idxs1 idxs2 e :
  elem_loop m enc (idxs1 ++ idxs2) e
  = ((elem_loop m enc idxs1 e).1.1
       ++ (elem_loop m enc idxs2 (elem_loop m enc idxs1 e).2).1.1,
     (elem_loop m enc idxs1 e).1.2
       ++ (elem_loop m enc idxs2 (elem_loop m enc idxs1 e).2).1.2,
     (elem_loop m enc idxs2 (elem_loop m enc idxs1 e).2).2).
Proof.
  revert e. induction idxs1 as [|i idxs1 IH]; intros e.
  - cbn. by destruct (elem_loop m enc idxs2 e) as [[ys ps] fin].
  - cbn [app elem_loop]. destruct (elem_step m (enc !!! i) e) as [[p q] e'].
    rewrite (IH e').
    destruct (elem_loop m enc idxs1 e') as [[ys1 ps1] fin1]. cbn [fst snd].
    by destruct (elem_loop m enc idxs2 fin1) as [[ys2 ps2] fin2].
Qed.

Lemma elem_step_max m v e :
  (elem_step m v e).1.1 = (elem_max m v e).2
  /\ (elem_step m v e).1.2 = (elem_max m v e).1.
Proof. unfold elem_step. by destruct (elem_max m v e). Qed.

(** The state of the loop holds the predictor's reading of the tokens that
    were chosen so far and are not blank. *)
Lemma elem_step_predictor m v e toks :
  predictor_at m toks e ->
  predictor_at m
    (toks ++ filter (fun tok => tok ≠ blank m) [(elem_step m v e).1.1])
    (elem_step m v e).2.
Proof.
  intros [H2 H1]. unfold elem_step. destruct (elem_max m v e) as [prob pred].
  cbn [fst snd]. rewrite filter_cons, filter_nil.
  destruct (decide (pred ≠ blank m)) as [NB|B].
  - rewrite bool_decide_eq_true_2 by done.
    unfold predictor_at. rewrite elem_predict_snoc, H2. cbn [fst snd].
    split; [done|].
    rewrite lookup_total_app_r by (rewrite length_elem_predict, length_app; cbn; lia).
    rewrite length_elem_predict, length_app. cbn [length].
    by replace (length toks + 1 - 1 - length toks)%nat with 0%nat by lia.
  - rewrite bool_decide_eq_false_2 by done. by rewrite app_nil_r.
Qed.

Lemma elem_loop_predictor m enc idxs e toks :
  predictor_at m toks e ->
  predictor_at m
    (toks ++ filter (fun tok => tok ≠ blank m) (elem_loop m enc idxs e).1.1)
    (elem_loop m enc idxs e).2.
Proof.
  revert e toks. induction idxs as [|i idxs IH]; intros e toks He.
  - cbn. by rewrite app_nil_r.
  - pose proof (elem_step_predictor m (enc !!! i) e toks He) as Hs.
    cbn [elem_loop]. destruct (elem_step m (enc !!! i) e) as [[p q] e'].
    cbn [fst snd] in Hs. specialize (IH e' _ Hs).
    destruct (elem_loop m enc idxs e') as [[ys ps] fin]. cbn [fst snd] in *.
    change (p :: ys) with ([p] ++ ys). by rewrite filter_app, app_assoc.
Qed.

Lemma predictor_at_init m : predictor_at m [Tokenizer.BOS] (elem_init m).
Proof. by split. Qed.

(** The step [i] of an element's run: the tokens chosen before it, and the
    state it starts from. *)
Lemma elem_run_step m (T : nat) x (i : nat) :
  (i < T)%nat ->
  let before := elem_loop m (elem_encode m x) (seq 0 i) (elem_init m) in
  take i (elem_run m T x).1 = before.1.1
  /\ (elem_run m T x).1 !! i
     = Some (elem_max m (elem_encode m x !!! i) before.2).2
  /\ (elem_run m T x).2 !! i
     = Some (elem_max m (elem_encode m x !!! i) before.2).1.
Proof.
  intros Hi before. unfold elem_run.
  replace T with (i + S (T - S i))%nat by lia.
  rewrite seq_app, elem_loop_app_full. fold before. cbn [fst snd].
  destruct (elem_loop_length m (elem_encode m x) (seq 0 i) (elem_init m)) as [L1 L2].
  fold before in L1, L2. rewrite length_seq in L1, L2.
  cbn [seq Nat.add elem_loop].
  destruct (elem_step_max m (elem_encode m x !!! i) before.2) as [S1 S2].
  destruct (elem_step m (elem_encode m x !!! i) before.2) as [[p q] e'].
  cbn [fst snd] in S1, S2. subst p q.
  destruct (elem_loop m (elem_encode m x) (seq (S i) (T - S i)) e') as [[ys ps] fin].
  cbn [fst snd]. split; [|split].
  - by rewrite take_app_length' by done.
  - rewrite lookup_app_r by lia. by rewrite L1, Nat.sub_diag.
  - rewrite lookup_app_r by lia. by rewrite L2, Nat.sub_diag.
Qed.

(** X18: [greedy_decode] walks through the scores of [forward].  Let
    [forward] be given, as the labels of an element, the tokens
    [greedy_decode] chooses for it that are not blank (followed by any
    padding).  Then at every step [i] the token recorded in [y_seq] and the
    log-probability recorded in [log_p] are the index and the value of the
    maximum of [log_softmax] of the scores of [forward] at the frame [i] and
    the label position [u], where [u] is the number of tokens other than
    blank chosen before the step [i]. *)
Theorem greedy_decode_follows_forward m xs ys b x y row lp (i : nat) :
  length xs = length ys ->
  Tokenizer.BOS < Z.of_nat (vocab_size m) ->
  Forall (Forall (fun tok => 0 <= tok < Z.of_nat (vocab_size m))) ys ->
  xs !! b = Some x -> ys !! b = Some y -> length x = shape1 xs ->
  token_record m xs !! b = Some row -> log_prob_record m xs !! b = Some lp ->
  filter (fun tok => tok ≠ blank m) row `prefix_of` y ->
  (i < shape1 xs)%nat ->
  exists prob logits,
    forward m xs ys = Ok prob
    /\ entry3 prob b i (length (filter (fun tok => tok ≠ blank m) (take i row)))
       = Some logits
    /\ row !! i = Some (max (log_softmax logits)).2
    /\ lp !! i = Some (max (log_softmax logits)).1.
Proof.
  intros Hlen HB Hys Hx Hy Hlx Hrow Hlp Hpre Hi.
  destruct (record_at m xs b x Hx) as [R1 R2].
  rewrite Hrow in R1. rewrite Hlp in R2. injection R1 as ->. injection R2 as ->.
  destruct (elem_run_step m (shape1 xs) x i Hi) as (E1 & E2 & E3).
  set (before := elem_loop m (elem_encode m x) (seq 0 i) (elem_init m)) in *.
  set (emitted := filter (fun tok => tok ≠ blank m) (take i (elem_run m (shape1 xs) x).1)).
  assert (emitted `prefix_of` y) as [rest Hy'].
  { etransitivity; [|exact Hpre]. unfold emitted.
    rewrite <- (take_drop i (elem_run m (shape1 xs) x).1) at 2.
    rewrite filter_app. by apply prefix_app_r. }
  pose proof (elem_loop_predictor m (elem_encode m x) (seq 0 i) (elem_init m)
                [Tokenizer.BOS] (predictor_at_init m)) as [_ HP].
  fold before in HP. rewrite <- E1 in HP. fold emitted in HP.
  cbn [app length] in HP.
  replace (S (length emitted) - 1)%nat with (length emitted) in HP by lia.
  destruct (forward_entry m xs ys b x y i (length emitted))
    as (prob & E & Hv); try done; try lia.
  { rewrite Hy', length_app. lia. }
  exists prob, (lattice_entry m x y i (length emitted)).
  split; [done|]. split; [done|].
  assert (max (log_softmax (lattice_entry m x y i (length emitted)))
          = elem_max m (elem_encode m x !!! i) before.2) as ->.
  { unfold elem_max, lattice_entry. rewrite HP.
    rewrite (elem_predict_take m (Tokenizer.BOS :: y)) by (rewrite Hy'; cbn; rewrite length_app; lia).
    cbn [take]. by rewrite Hy', take_app_length. }
  done.
Qed.

Lemma greedy_decode_follows_forward_witness :
  length batch3 = length labels3_padded
  /\ Tokenizer.BOS < Z.of_nat (vocab_size small)
  /\ Forall (Forall (fun tok => 0 <= tok < Z.of_nat (vocab_size small)))
            labels3_padded
  /\ batch3 !! 1%nat = Some utterance /\ labels3_padded !! 1%nat = Some [3; 1]
  /\ length utterance = shape1 batch3
  /\ token_record small batch3 !! 1%nat = Some [0; 0; 3; 0; 0]
  /\ log_prob_record small batch3 !! 1%nat = Some (elem_run small 5 utterance).2
  /\ filter (fun tok => tok ≠ blank small) [0; 0; 3; 0; 0] `prefix_of` [3; 1]
  /\ (3 < shape1 batch3)%nat
  /\ exists prob logits,
       forward small batch3 labels3_padded = Ok prob
       /\ entry3 prob 1 3
            (length (filter (fun tok => tok ≠ blank small) (take 3 [0; 0; 3; 0; 0])))
          = Some logits
       /\ [0; 0; 3; 0; 0] !! 3%nat = Some (max (log_softmax logits)).2
       /\ (elem_run small 5 utterance).2 !! 3%nat
          = Some (max (log_softmax logits)).1.
Proof.
  assert (Forall (Forall (fun tok => 0 <= tok < Z.of_nat (vocab_size small)))
            labels3_padded)
    as HF by (repeat constructor; cbn; lia).
  assert (token_record small batch3 !! 1%nat = Some [0; 0; 3; 0; 0]) as Hrow.
  { rewrite <- small_tokens. by apply (record_at small batch3 1 utterance). }
  assert (log_prob_record small batch3 !! 1%nat = Some (elem_run small 5 utterance).2)
    as Hlp by (by apply (record_at small batch3 1 utterance)).
  assert (filter (fun tok => tok ≠ blank small) [0; 0; 3; 0; 0] `prefix_of` [3; 1])
    as Hpre by (by exists [1]).
  split; [reflexivity|]. split; [reflexivity|]. split; [exact HF|].
  split; [reflexivity|]. split; [reflexivity|]. split; [reflexivity|].
  split; [exact Hrow|]. split; [exact Hlp|]. split; [exact Hpre|].
  split; [cbn; lia|].
  apply (greedy_decode_follows_forward small batch3 labels3_padded 1 utterance [3; 1]
           [0; 0; 3; 0; 0] (elem_run small 5 utterance).2 3);
    first [reflexivity | exact HF | exact Hrow | exact Hlp | exact Hpre | cbn; lia].
Defined.

End ForwardFacts.
